(** * gitlab-ci-crawler: the crawl engine of package [crawler]

    A shallow embedding of [Crawl], [updateProjectInGraph] and
    [traverseIncludes].  The crawler talks to three collaborators (the
    storage layer, the GitLab client and the logger); every call to one of
    them is recorded, with its arguments and its result, in a chronological
    trace carried by the crawler state.  The behaviour of the collaborators
    is a parameter of the development: a [World] answers each call as a
    function of the history so far.

    The consumer loop of [Crawl] is the only goroutine that touches the
    crawler, so the operations run one after the other and the locking
    around [projectSet] has no effect of its own.  The producer goroutine is
    represented by what it did: the projects it delivered before the channel
    was closed and what [StreamAllProjects] returned; the line it logs on an
    error is written at a moment that the code does not order with the calls
    of the consumer, so it is recorded apart from them, in [background].  A
    project ID is an integer that is only passed along, never computed
    with. *)

From Stdlib Require Import ZArith.
From stdpp Require Import gmap strings list.

Local Open Scope string_scope.
Local Open Scope list_scope.

#[local] Set Warnings "-clear-no-such-hyp".

(** ** Errors

    Go's [error] values as far as the crawler can tell them apart: the two
    errors a context reports once it is done, the sentinel
    [gitlab.ErrRawFileNotFound], errors of a collaborator that the crawler
    never inspects, and [fmt.Errorf] with a trailing [%w], which wraps its
    cause. *)

Inductive ctxError := Canceled | DeadlineExceeded.

Inductive fmtArg :=
| ArgStr (s : string)
| ArgInt (z : Z).

Inductive error :=
| ErrContext (e : ctxError)
| ErrRawFileNotFound
| ErrOpaque (msg : string)
| Errorf (format : string) (args : list fmtArg) (cause : error).

#[global] Instance ctxError_eq_dec : EqDecision ctxError.
Proof. solve_decision. Defined.

#[global] Instance fmtArg_eq_dec : EqDecision fmtArg.
Proof. solve_decision. Defined.

#[global] Instance error_eq_dec : EqDecision error.
Proof. solve_decision. Defined.

#[global] Instance byte_eq_dec : EqDecision Byte.byte := Byte.byte_eq_dec.

(** [errors.Is]: the target is looked for along the chain of wrapped causes. *)
Fixpoint errorsIs (err target : error) : bool :=
  if decide (err = target) then true
  else match err with
       | Errorf _ _ cause => errorsIs cause target
       | _ => false
       end.

(** The innermost error of a chain of [%w] wraps. *)
Fixpoint rootCause (err : error) : error :=
  match err with
  | Errorf _ _ cause => rootCause cause
  | _ => err
  end.

(** ** Data model *)

Module gitlab.
Record Project := {
  ID : Z;
  PathWithNamespace : string;
  DefaultBranch : string
}.
End gitlab.

Module storage.
Record IncludeEdge := {
  SourceProject : string;
  TargetProject : string;
  Ref : string;
  Files : list string
}.
End storage.

#[warnings="-register-all"] Inductive RemoteInclude := mkRemoteInclude {
  Project : string;
  Ref : string;
  Files : list string;
  Children : list RemoteInclude
}.

Record Config := {
  GitlabHost : string;
  GitlabToken : string;
  GitlabMaxRPS : Z;
  DefaultRefName : string;
  StorageCleanup : bool
}.

Definition gitlabCIFileName : string := ".gitlab-ci.yml".

(** ** Collaborator calls and their trace *)

Inductive Level := InfoLevel | WarnLevel | ErrorLevel.

Inductive Event :=
| EvRemoveAll (res : option error)
| EvCreateProjectNode (path : string) (res : option error)
| EvCreateIncludeEdge (edge : storage.IncludeEdge) (res : option error)
| EvGetRawFileFromProject (id : Z) (file ref : string) (res : list Byte.byte + error)
| EvParseIncludes (raw : list Byte.byte) (res : list RemoteInclude + error)
| EvLog (lvl : Level) (err : option error) (fields : list (string * fmtArg)) (msg : string).

Definition Trace := list Event.

(** A [context.Context] as the crawler observes it: what [ctx.Err()] answers
    at a given point of the history ([None] while the context is live). *)
Definition Context := Trace -> option ctxError.

(** The collaborators.  [parseIncludes] and [enrichIncludes] are methods of
    the crawler that live in another file of the package; they are taken as
    parameters: the first may fetch nested files, so it answers by the
    history, the second is a pure rewrite of the parsed includes. *)
Record World := {
  RemoveAll : Trace -> option error;
  CreateProjectNode : Trace -> string -> option error;
  CreateIncludeEdge : Trace -> storage.IncludeEdge -> option error;
  GetRawFileFromProject :
    Context -> Trace -> Z -> string -> string -> list Byte.byte + error;
  parseIncludes : Trace -> list Byte.byte -> list RemoteInclude + error;
  enrichIncludes :
    list RemoteInclude -> gitlab.Project -> string -> list RemoteInclude
}.

(** ** The crawler *)

Record Crawler := {
  config : Config;
  projectSet : gset string;
  trace : Trace;
  background : Trace
}.

Definition New (cfg : Config) : Crawler :=
  {| config := cfg; projectSet := ∅; trace := []; background := [] |}.

Definition emit (ev : Event) (c : Crawler) : Crawler :=
  {| config := config c; projectSet := projectSet c; trace := trace c ++ [ev];
     background := background c |}.

(** [c.projectSet[path] = struct{}{}] *)
Definition markVisited (path : string) (c : Crawler) : Crawler :=
  {| config := config c; projectSet := {[path]} ∪ projectSet c; trace := trace c;
     background := background c |}.

(** What the producer goroutine of [Crawl] logs when [StreamAllProjects]
    returned [streamErr]. *)
Definition producerLog (streamErr : option error) : Trace :=
  match streamErr with
  | Some err =>
      [EvLog ErrorLevel (Some err) [] "stopping crawler: error in project stream"]
  | None => []
  end.

(** The [go func() { ... }()] of [Crawl]: the goroutine is started, and what
    it logs goes to [background]. *)
Definition goProducer (streamErr : option error) (c : Crawler) : Crawler :=
  {| config := config c; projectSet := projectSet c; trace := trace c;
     background := background c ++ producerLog streamErr |}.

Section Crawler.
Variable W : World.

Definition storageRemoveAll (c : Crawler) : Crawler * option error :=
  let res := RemoveAll W (trace c) in
  (emit (EvRemoveAll res) c, res).

Definition storageCreateProjectNode (path : string) (c : Crawler)
  : Crawler * option error :=
  let res := CreateProjectNode W (trace c) path in
  (emit (EvCreateProjectNode path res) c, res).

Definition storageCreateIncludeEdge (edge : storage.IncludeEdge) (c : Crawler)
  : Crawler * option error :=
  let res := CreateIncludeEdge W (trace c) edge in
  (emit (EvCreateIncludeEdge edge res) c, res).

Definition gitlabGetRawFileFromProject
    (ctx : Context) (id : Z) (file ref : string) (c : Crawler)
  : Crawler * (list Byte.byte + error) :=
  let res := GetRawFileFromProject W ctx (trace c) id file ref in
  (emit (EvGetRawFileFromProject id file ref res) c, res).

Definition callParseIncludes (raw : list Byte.byte) (c : Crawler)
  : Crawler * (list RemoteInclude + error) :=
  let res := parseIncludes W (trace c) raw in
  (emit (EvParseIncludes raw res) c, res).

Definition logger (lvl : Level) (err : option error)
    (fields : list (string * fmtArg)) (msg : string) (c : Crawler) : Crawler :=
  emit (EvLog lvl err fields msg) c.

(** [traverseIncludes]: mark, node, edge, then the children in order,
    stopping at the first child that fails. *)
Fixpoint traverseIncludes (parentName : string) (include : RemoteInclude)
    (c : Crawler) {struct include} : Crawler * option error :=
  let c := markVisited (Project include) c in
  match storageCreateProjectNode (Project include) c with
  | (c, Some err) =>
      (c, Some (Errorf "failed to write project to neo4j: %w" [] err))
  | (c, None) =>
      match storageCreateIncludeEdge
              {| storage.SourceProject := parentName;
                 storage.TargetProject := Project include;
                 storage.Ref := Ref include;
                 storage.Files := Files include |} c with
      | (c, Some err) =>
          (c, Some (Errorf "failed to write neo4j transaction: %w" [] err))
      | (c, None) =>
          (fix range (children : list RemoteInclude) (c : Crawler)
             : Crawler * option error :=
             match children with
             | [] => (c, None)
             | ci :: rest =>
                 match traverseIncludes (Project ci) ci c with
                 | (c, Some err) =>
                     (c, Some (Errorf "failed to write child includes for %s: %w"
                                      [ArgStr (Project ci)] err))
                 | (c, None) => range rest c
                 end
             end) (Children include) c
      end
  end.

(** The [for _, ci := range include.Children] loop of [traverseIncludes]. *)
Fixpoint traverseChildren (children : list RemoteInclude) (c : Crawler)
  : Crawler * option error :=
  match children with
  | [] => (c, None)
  | ci :: rest =>
      match traverseIncludes (Project ci) ci c with
      | (c, Some err) =>
          (c, Some (Errorf "failed to write child includes for %s: %w"
                           [ArgStr (Project ci)] err))
      | (c, None) => traverseChildren rest c
      end
  end.

(** The [for _, i := range includes] loop of [updateProjectInGraph]: an
    empty ref is only warned about, and a failed include is logged and the
    loop goes on with the next one. *)
Fixpoint rangeIncludes (parentName : string) (includes : list RemoteInclude)
    (c : Crawler) : Crawler :=
  match includes with
  | [] => c
  | i :: rest =>
      let c :=
        if decide (Ref i = "") then
          logger WarnLevel None
                 [("Project", ArgStr (Project i));
                  ("Files", ArgStr (String.concat "," (Files i)))]
                 "Got empty ref" c
        else c in
      let c :=
        match traverseIncludes parentName i c with
        | (c, Some err) =>
            logger ErrorLevel (Some err) [("Project", ArgStr (Project i))]
                   "failed to parse include" c
        | (c, None) => c
        end in
      rangeIncludes parentName rest c
  end.

Definition updateProjectInGraph (ctx : Context) (project : gitlab.Project)
    (c : Crawler) : Crawler * option error :=
  match ctx (trace c) with
  | Some e => (c, Some (ErrContext e))
  | None =>
      if decide (gitlab.PathWithNamespace project ∈ projectSet c) then (c, None)
      else
        let c := markVisited (gitlab.PathWithNamespace project) c in
        match storageCreateProjectNode (gitlab.PathWithNamespace project) c with
        | (c, Some err) =>
            (c, Some (Errorf "failed to write project to neo4j: %w" [] err))
        | (c, None) =>
            match gitlabGetRawFileFromProject ctx (gitlab.ID project)
                    gitlabCIFileName (gitlab.DefaultBranch project) c with
            | (c, inr err) =>
                if errorsIs err ErrRawFileNotFound then (c, None)
                else (c, Some (Errorf "failed to get file %s: %w"
                                      [ArgStr gitlabCIFileName] err))
            | (c, inl gitlabCIFile) =>
                match callParseIncludes gitlabCIFile c with
                | (c, inr err) =>
                    (c, Some (Errorf "failed to parse includes for %d: %w"
                                     [ArgInt (gitlab.ID project)] err))
                | (c, inl includes) =>
                    let includes :=
                      enrichIncludes W includes project
                                     (DefaultRefName (config c)) in
                    (rangeIncludes (gitlab.PathWithNamespace project) includes c,
                     None)
                end
            end
        end
  end.

(** The consumer loop [for p := range resultChan] of [Crawl], over
    [stream], the projects the producer goroutine delivered before the
    channel was closed. *)
Fixpoint rangeResultChan (ctx : Context) (stream : list gitlab.Project)
    (c : Crawler) : Crawler :=
  match stream with
  | [] => c
  | p :: rest =>
      if decide (gitlab.PathWithNamespace p ∈ projectSet c) then
        rangeResultChan ctx rest c
      else
        match updateProjectInGraph ctx p c with
        | (c, Some err) =>
            rangeResultChan ctx rest
              (logger ErrorLevel (Some err)
                      [("ProjectPath", ArgStr (gitlab.PathWithNamespace p));
                       ("ProjectID", ArgInt (gitlab.ID p))]
                      "failed to parse project" c)
        | (c, None) => rangeResultChan ctx rest c
        end
  end.

Definition crawlProjects (ctx : Context) (stream : list gitlab.Project)
    (streamErr : option error) (c : Crawler) : Crawler * option error :=
  let c := logger InfoLevel None [] "Starting to crawl..." c in
  let c := goProducer streamErr c in
  let c := rangeResultChan ctx stream c in
  (logger InfoLevel None [] "stopped crawling" c, None).

(** [Crawl].  [stream] and [streamErr] are the outcome of the
    [StreamAllProjects] call of the producer goroutine: what the channel
    yielded until it was closed, and the error returned, if any. *)
Definition Crawl (ctx : Context) (stream : list gitlab.Project)
    (streamErr : option error) (c : Crawler) : Crawler * option error :=
  if StorageCleanup (config c) then
    let c := logger InfoLevel None [] "Cleanup storage..." c in
    match storageRemoveAll c with
    | (c, Some err) => (c, Some err)
    | (c, None) => crawlProjects ctx stream streamErr c
    end
  else crawlProjects ctx stream streamErr c.

(** The two operations that touch the Visited Set, as steps of a run. *)
Inductive Op :=
| OpProcess (ctx : Context) (project : gitlab.Project)
| OpPersist (parentName : string) (include : RemoteInclude).

Definition runOp (c : Crawler) (op : Op) : Crawler :=
  match op with
  | OpProcess ctx project => fst (updateProjectInGraph ctx project c)
  | OpPersist parentName include => fst (traverseIncludes parentName include c)
  end.

Definition runOps (ops : list Op) (c : Crawler) : Crawler :=
  fold_left runOp ops c.

End Crawler.

(** ** The Include Resolver *)

Module Resolver.

(** Modelled from the spec: the remote-project form of an include
    directive (descriptors are parsed in another file of the package):
    project, ref and one or many file paths. *)
Record Directive := {
  dProject : string;
  dRef : string;
  dFiles : list string
}.

(** A (project, ref, file) reference. *)
Definition Triple : Type := string * string * string.

(** Modelled from the spec: the descriptor graph the resolver walks, that
    is, what the raw-file fetch answers for a reference ([None] for a file
    that is missing or cannot be fetched) and which remote includes a
    descriptor declares ([None] for a malformed one). *)
Record Remote := {
  fetch : Triple -> option (list Byte.byte);
  parse : list Byte.byte -> option (list Directive)
}.

(** Modelled from the spec: the bookkeeping threaded through one
    resolution, that is, the references expanded so far, in the order of
    their fetches, and the references whose file could not be fetched or
    parsed (the error recorded on that branch). *)
Record Progress := {
  expanded : list Triple;
  failed : list Triple
}.

Definition start : Progress := {| expanded := []; failed := [] |}.

Definition noteExpanded (t : Triple) (s : Progress) : Progress :=
  {| expanded := expanded s ++ [t]; failed := failed s |}.

Definition noteFailed (t : Triple) (s : Progress) : Progress :=
  {| expanded := expanded s; failed := failed s ++ [t] |}.

(** Modelled from the spec: the directives found in one fetched file are
    expanded in descriptor order. *)
Fixpoint expandAll (expandOne : Directive -> Progress -> RemoteInclude * Progress)
    (ds : list Directive) (s : Progress) : list RemoteInclude * Progress :=
  match ds with
  | [] => ([], s)
  | d :: rest =>
      let (i, s1) := expandOne d s in
      let (more, s2) := expandAll expandOne rest s1 in
      (i :: more, s2)
  end.

(** Modelled from the spec: the files of one remote include are fetched and
    parsed in turn; a reference that was already expanded in this resolution
    is refused; a file that cannot be fetched or parsed is recorded and
    yields no children, and its siblings go on (a partial tree). *)
Fixpoint expandFiles (R : Remote)
    (expandOne : Directive -> Progress -> RemoteInclude * Progress)
    (project ref : string) (files : list string) (s : Progress)
  : list RemoteInclude * Progress :=
  match files with
  | [] => ([], s)
  | f :: rest =>
      let t : Triple := (project, ref, f) in
      if decide (t ∈ expanded s) then expandFiles R expandOne project ref rest s
      else
        let s := noteExpanded t s in
        match fetch R t with
        | None => expandFiles R expandOne project ref rest (noteFailed t s)
        | Some raw =>
            match parse R raw with
            | None => expandFiles R expandOne project ref rest (noteFailed t s)
            | Some ds =>
                let (children, s1) := expandAll expandOne ds s in
                let (more, s2) := expandFiles R expandOne project ref rest s1 in
                (children ++ more, s2)
            end
        end
  end.

(** Modelled from the spec: the recursive expansion of the Include Resolver
    (the body of [parseIncludes] and the nested fetches it makes belong to
    another file of the package).  Each remote include is expanded by
    fetching its files and parsing them for further remote includes, which
    become its children; the recursion carries a maximum depth and the set
    of (project, ref, file) references already expanded in the current
    resolution, and refuses to expand a reference again. *)
Fixpoint expand (R : Remote) (depth : nat) (d : Directive) (s : Progress)
  : RemoteInclude * Progress :=
  match depth with
  | O => (mkRemoteInclude (dProject d) (dRef d) (dFiles d) [], s)
  | S depth' =>
      let (children, s') :=
        expandFiles R (expand R depth') (dProject d) (dRef d) (dFiles d) s in
      (mkRemoteInclude (dProject d) (dRef d) (dFiles d) children, s')
  end.

(** Modelled from the spec: [Resolve] of the Include Resolver.  A malformed
    root descriptor is an error and produces no includes ([None]); otherwise
    every remote include of the root is expanded, with a fresh bookkeeping. *)
Definition Resolve (R : Remote) (maxDepth : nat) (descriptor : list Byte.byte)
  : option (list RemoteInclude * Progress) :=
  match parse R descriptor with
  | None => None
  | Some ds => Some (expandAll (expand R maxDepth) ds start)
  end.

End Resolver.

(** Height and size of an include tree. *)
Fixpoint height (include : RemoteInclude) : nat :=
  S ((fix highest (children : list RemoteInclude) : nat :=
        match children with
        | [] => 0
        | ci :: rest => Nat.max (height ci) (highest rest)
        end) (Children include)).

Fixpoint heightAll (children : list RemoteInclude) : nat :=
  match children with
  | [] => 0
  | ci :: rest => Nat.max (height ci) (heightAll rest)
  end.

(** Number of nodes of an include tree. *)
Fixpoint treeSize (include : RemoteInclude) : nat :=
  S ((fix total (children : list RemoteInclude) : nat :=
        match children with
        | [] => 0
        | ci :: rest => treeSize ci + total rest
        end) (Children include)).

Fixpoint treeSizeAll (children : list RemoteInclude) : nat :=
  match children with
  | [] => 0
  | ci :: rest => treeSize ci + treeSizeAll rest
  end.

(** What a step of the resolver guarantees about the includes it returns
    and about the bookkeeping: the trees are at most [k] high, the
    references expanded before are still there, in order, and no reference
    was expanded twice. *)
Definition bounded (k : nat) (s : Resolver.Progress)
    (r : list RemoteInclude * Resolver.Progress) : Prop :=
  heightAll (fst r) <= k /\
  Resolver.expanded s `prefix_of` Resolver.expanded (snd r) /\
  (NoDup (Resolver.expanded s) -> NoDup (Resolver.expanded (snd r))).

Definition boundedOne (k : nat)
    (expandOne : Resolver.Directive -> Resolver.Progress
                 -> RemoteInclude * Resolver.Progress) : Prop :=
  forall d s, bounded k s ([fst (expandOne d s)], snd (expandOne d s)).

(** A finite include graph: every reference that the directives [ds]
    make lies in [U], and so does every reference made by a file that can
    be fetched and parsed. *)
Definition inScope (U : gset Resolver.Triple) (ds : list Resolver.Directive)
  : Prop :=
  forall d, d ∈ ds -> forall f, f ∈ Resolver.dFiles d ->
    (Resolver.dProject d, Resolver.dRef d, f) ∈ U.

Definition closedUnder (R : Resolver.Remote) (U : gset Resolver.Triple) : Prop :=
  forall t raw ds,
    Resolver.fetch R t = Some raw -> Resolver.parse R raw = Some ds ->
    inScope U ds.

(** The references of [U] that the resolution has not expanded yet. *)
Definition pending (U : gset Resolver.Triple) (s : Resolver.Progress) : nat :=
  size (U ∖ list_to_set (Resolver.expanded s)).

Definition agreeBelow (U : gset Resolver.Triple) (n : nat)
    (f g : Resolver.Directive -> Resolver.Progress
           -> RemoteInclude * Resolver.Progress) : Prop :=
  forall d s, inScope U [d] -> pending U s <= n -> f d s = g d s.

(** ** Observations on traces and include trees *)

Definition isNodeCall (path : string) (ev : Event) : bool :=
  match ev with
  | EvCreateProjectNode p _ => bool_decide (p = path)
  | _ => false
  end.

Definition isEdgeCall (ev : Event) : bool :=
  match ev with
  | EvCreateIncludeEdge _ _ => true
  | _ => false
  end.

Definition isFetchCall (ev : Event) : bool :=
  match ev with
  | EvGetRawFileFromProject _ _ _ _ => true
  | _ => false
  end.

Definition isWrite (ev : Event) : bool :=
  match ev with
  | EvCreateProjectNode _ _ | EvCreateIncludeEdge _ _ => true
  | _ => false
  end.

(** Number of [CreateProjectNode] calls made for [path]. *)
Definition nodeCalls (path : string) (tr : Trace) : nat :=
  length (List.filter (isNodeCall path) tr).

(** The edges handed to [CreateIncludeEdge], in call order. *)
Fixpoint edgesOf (tr : Trace) : list storage.IncludeEdge :=
  match tr with
  | [] => []
  | EvCreateIncludeEdge e _ :: rest => e :: edgesOf rest
  | _ :: rest => edgesOf rest
  end.

(** Number of nodes of an include tree whose target project is [path]. *)
Fixpoint targets (path : string) (include : RemoteInclude) : nat :=
  (if decide (Project include = path) then 1 else 0)
  + (fix sum (children : list RemoteInclude) : nat :=
       match children with
       | [] => 0
       | ci :: rest => targets path ci + sum rest
       end) (Children include).


Definition isLog (ev : Event) : bool :=
  match ev with
  | EvLog _ _ _ _ => true
  | _ => false
  end.

(** [grows P c c']: [c'] has the configuration of [c], a Visited Set that
    contains the one of [c], and the trace of [c] followed by new events
    that all satisfy [P]. *)
Definition grows (P : Event -> Prop) (c c' : Crawler) : Prop :=
  config c' = config c /\
  projectSet c ⊆ projectSet c' /\
  exists delta, trace c' = trace c ++ delta /\ Forall P delta.

(** What persisting an include tree may add to the trace, what the include
    loop of the processor may add, and no restriction at all. *)
Definition persistEvent (ev : Event) : Prop := isWrite ev = true.

Definition includeLoopEvent (ev : Event) : Prop :=
  isWrite ev = true \/ isLog ev = true.

Definition anyEvent (ev : Event) : Prop := True.

Fixpoint targetsAll (path : string) (children : list RemoteInclude) : nat :=
  match children with
  | [] => 0
  | ci :: rest => targets path ci + targetsAll path rest
  end.

(** How many [CreateProjectNode] calls for [path] a traversal makes: one
    per node of the tree with that target when it returns nil, and not more
    when it fails. *)
Definition countsNodeCalls (W : World) (path : string) (i : RemoteInclude) : Prop :=
  forall parentName c,
    let r := traverseIncludes W parentName i c in
    nodeCalls path (trace (fst r)) <= nodeCalls path (trace c) + targets path i /\
    (snd r = None ->
     nodeCalls path (trace (fst r)) = nodeCalls path (trace c) + targets path i).

(** An edge from a project to itself. *)
Definition selfLoop (e : storage.IncludeEdge) : Prop :=
  storage.SourceProject e = storage.TargetProject e.

(** The edge [traverseIncludes] hands to [CreateIncludeEdge]. *)
Definition includeEdge (parentName : string) (include : RemoteInclude)
  : storage.IncludeEdge :=
  {| storage.SourceProject := parentName;
     storage.TargetProject := Project include;
     storage.Ref := Ref include;
     storage.Files := Files include |}.

(** The state in which [traverseIncludes] enters its loop over the
    children: marked, node and edge written. *)
Definition afterOwnWrites (parentName : string) (include : RemoteInclude)
    (c : Crawler) : Crawler :=
  emit (EvCreateIncludeEdge (includeEdge parentName include) None)
    (emit (EvCreateProjectNode (Project include) None)
       (markVisited (Project include) c)).

(** The events a step from [c] to [c'] added to the trace. *)
Definition newEvents (c c' : Crawler) : Trace :=
  drop (length (trace c)) (trace c').

(** What [ctx.Err()] turns into as the result of a call. *)
Definition ctxResult (ctx : Context) (tr : Trace) : option error :=
  match ctx tr with
  | Some e => Some (ErrContext e)
  | None => None
  end.

(** ** The vendored driver: connection bookkeeping *)

Module pool.

(** [idb.Connection] as far as the tracker looks at it: what
    [IsSsrEnabled] answers. *)
Record Connection := {
  IsSsrEnabled : bool
}.

(** [^uint64(0)], the complement of zero on 64 bits. *)
Definition allOnes : Z := Z.lxor 0 (Z.ones 64).

(** [atomic.AddUint64]: the new value of the counter, modulo 2^64. *)
Definition AddUint64 (counter delta : Z) : Z := (counter + delta) mod 2 ^ 64.

Record ssrTracker := {
  ssrEnabledCount : Z;
  ssrDisabledCount : Z
}.

(** The zero value of the struct. *)
Definition zero : ssrTracker :=
  {| ssrEnabledCount := 0; ssrDisabledCount := 0 |}.

Definition addConnection (c : Connection) (s : ssrTracker) : ssrTracker :=
  if IsSsrEnabled c then
    {| ssrEnabledCount := AddUint64 (ssrEnabledCount s) allOnes;
       ssrDisabledCount := ssrDisabledCount s |}
  else
    {| ssrEnabledCount := ssrEnabledCount s;
       ssrDisabledCount := AddUint64 (ssrDisabledCount s) allOnes |}.

Definition removeConnection (c : Connection) (s : ssrTracker) : ssrTracker :=
  if IsSsrEnabled c then
    {| ssrEnabledCount := AddUint64 (ssrEnabledCount s) 1;
       ssrDisabledCount := ssrDisabledCount s |}
  else
    {| ssrEnabledCount := ssrEnabledCount s;
       ssrDisabledCount := AddUint64 (ssrDisabledCount s) 1 |}.

Definition ssrEnabled (s : ssrTracker) : bool :=
  (0 <? ssrEnabledCount s)%Z && (ssrDisabledCount s =? 0)%Z.

(** Both counters are [uint64] values. *)
Definition inRange (s : ssrTracker) : Prop :=
  (0 <= ssrEnabledCount s < 2 ^ 64)%Z /\ (0 <= ssrDisabledCount s < 2 ^ 64)%Z.

(** An update of the tracker: a connection comes or goes. *)
Inductive Update :=
| Add (c : Connection)
| Remove (c : Connection).

Definition apply (s : ssrTracker) (u : Update) : ssrTracker :=
  match u with
  | Add c => addConnection c s
  | Remove c => removeConnection c s
  end.

(** Adding the connections [cs] one after the other. *)
Definition addAll (cs : list Connection) (s : ssrTracker) : ssrTracker :=
  fold_left (fun s c => addConnection c s) cs s.

End pool.

(** ** The vendored driver: notification settings of a transaction *)

Module idb.

(** [db.ProtocolVersion], declared in another package of the driver. *)
Record ProtocolVersion := {
  Major : Z;
  Minor : Z
}.

(** The two filter types of package [notifications], declared outside this
    file, each represented by what its two methods answer. *)
Record NotificationDisabledCategories := {
  DisablesNoneCategories : bool;
  DisabledCategories : list string
}.

Record NotificationDisabledClassifications := {
  DisablesNoneClassifications : bool;
  DisabledClassifications : list string
}.

Record NotificationConfig := {
  MinSev : string;
  DisCats : NotificationDisabledCategories;
  DisClas : NotificationDisabledClassifications
}.

Definition severityKey : string := "notifications_minimum_severity".

(** The key under which the disabled filters go, by protocol version. *)
Definition disabledKey (version : ProtocolVersion) : string :=
  if decide (5 <= Minor version)%Z
  then "notifications_disabled_classifications"
  else "notifications_disabled_categories".

Section ToMeta.
(** The values of a [map[string]any]: any type into which a string and a
    slice of strings can be put; and [notifications.DefaultLevel], a
    constant declared outside this file. *)
Variable any : Type.
Variable ofString : string -> any.
Variable ofStrings : list string -> any.
Variable DefaultLevel : string.

(** [ToMeta] writes into the map it is given; here it returns the map. *)
Definition ToMeta (n : NotificationConfig) (meta : gmap string any)
    (version : ProtocolVersion) : gmap string any :=
  let meta :=
    if decide (MinSev n <> DefaultLevel)
    then <[severityKey := ofString (MinSev n)]> meta
    else meta in
  if DisablesNoneCategories (DisCats n)
     || DisablesNoneClassifications (DisClas n)
  then <[disabledKey version := ofStrings []]> meta
  else
    let meta :=
      if decide (0 < length (DisabledCategories (DisCats n)))%nat
      then <[disabledKey version := ofStrings (DisabledCategories (DisCats n))]> meta
      else meta in
    if decide (0 < length (DisabledClassifications (DisClas n)))%nat
    then <[disabledKey version :=
             ofStrings (DisabledClassifications (DisClas n))]> meta
    else meta.

(** What [ToMeta] leaves under the key of the disabled filters. *)
Definition disabledEntry (n : NotificationConfig) (old : option any)
  : option any :=
  if DisablesNoneCategories (DisCats n)
     || DisablesNoneClassifications (DisClas n)
  then Some (ofStrings [])
  else
    match DisabledClassifications (DisClas n), DisabledCategories (DisCats n) with
    | _ :: _, _ => Some (ofStrings (DisabledClassifications (DisClas n)))
    | [], _ :: _ => Some (ofStrings (DisabledCategories (DisCats n)))
    | [], [] => old
    end.

End ToMeta.

End idb.

(** ** Plans: what a traversal writes when no write fails *)

(** The answer a collaborator gave to a call, when it was an error. *)
Definition resultOf (ev : Event) : option error :=
  match ev with
  | EvRemoveAll res => res
  | EvCreateProjectNode _ res => res
  | EvCreateIncludeEdge _ res => res
  | EvGetRawFileFromProject _ _ _ (inr err) => Some err
  | EvParseIncludes _ (inr err) => Some err
  | _ => None
  end.

(** The same storage call, answered with nil. *)
Definition succeeded (ev : Event) : Event :=
  match ev with
  | EvCreateProjectNode path _ => EvCreateProjectNode path None
  | EvCreateIncludeEdge edge _ => EvCreateIncludeEdge edge None
  | _ => ev
  end.

(** The paths handed to [CreateProjectNode], in call order. *)
Fixpoint nodePaths (tr : Trace) : list string :=
  match tr with
  | [] => []
  | EvCreateProjectNode path _ :: rest => path :: nodePaths rest
  | _ :: rest => nodePaths rest
  end.

(** The storage calls of [traverseIncludes parentName include] in the order
    the code makes them when each one answers nil: node and edge of the
    include, then the same for every child, called with the child's own
    project as parent name, as in the recursive call. *)
Fixpoint planOf (parentName : string) (include : RemoteInclude) : list Event :=
  EvCreateProjectNode (Project include) None
  :: EvCreateIncludeEdge (includeEdge parentName include) None
  :: (fix all (children : list RemoteInclude) : list Event :=
        match children with
        | [] => []
        | ci :: rest => planOf (Project ci) ci ++ all rest
        end) (Children include).

Fixpoint planAll (children : list RemoteInclude) : list Event :=
  match children with
  | [] => []
  | ci :: rest => planOf (Project ci) ci ++ planAll rest
  end.

(** The target projects of an include tree, parent before children. *)
Fixpoint projectsOf (include : RemoteInclude) : list string :=
  Project include
  :: (fix all (children : list RemoteInclude) : list string :=
        match children with
        | [] => []
        | ci :: rest => projectsOf ci ++ all rest
        end) (Children include).

Fixpoint projectsAll (children : list RemoteInclude) : list string :=
  match children with
  | [] => []
  | ci :: rest => projectsOf ci ++ projectsAll rest
  end.

(** What a run of [traverseIncludes] or of its loop over the children did,
    from the crawler [c] to the result [r], against the plan [plan]: the
    trace grew by [d], the Visited Set grew by the paths of the node calls
    in [d]; on nil, [d] is the plan; on an error, [d] follows the plan up to
    a last call that failed, and the error wraps the answer of that call. *)
Definition followsPlan (plan : list Event) (c : Crawler)
    (r : Crawler * option error) : Prop :=
  exists d,
    trace (fst r) = trace c ++ d /\
    config (fst r) = config c /\
    projectSet (fst r) = projectSet c ∪ list_to_set (nodePaths d) /\
    match snd r with
    | None => d = plan
    | Some err =>
        exists d0 ev e,
          d = d0 ++ [ev] /\
          resultOf ev = Some e /\
          (d0 ++ [succeeded ev]) `prefix_of` plan /\
          errorsIs err e = true
    end.

(** A storage layer whose writes never fail. *)
Definition writesSucceed (W : World) : Prop :=
  (forall tr path, CreateProjectNode W tr path = None) /\
  (forall tr edge, CreateIncludeEdge W tr edge = None).

(** The warning the include loop logs for an include without ref. *)
Definition emptyRefWarning (i : RemoteInclude) : Event :=
  EvLog WarnLevel None
    [("Project", ArgStr (Project i));
     ("Files", ArgStr (String.concat "," (Files i)))]
    "Got empty ref".

Definition isEmptyRefWarning (ev : Event) : bool :=
  match ev with
  | EvLog WarnLevel None _ msg => bool_decide (msg = "Got empty ref")
  | _ => false
  end.

(** What the include loop of the processor adds to the trace when no write
    fails: for each include its warning, if its ref is empty, and its plan. *)
Fixpoint loopPlan (parentName : string) (includes : list RemoteInclude)
  : list Event :=
  match includes with
  | [] => []
  | i :: rest =>
      (if decide (Ref i = "") then [emptyRefWarning i] else [])
      ++ planOf parentName i ++ loopPlan parentName rest
  end.

(** The line [Crawl] logs for a project whose processing returned [err]. *)
Definition failedProjectLog (err : error) (p : gitlab.Project) : Event :=
  EvLog ErrorLevel (Some err)
    [("ProjectPath", ArgStr (gitlab.PathWithNamespace p));
     ("ProjectID", ArgInt (gitlab.ID p))]
    "failed to parse project".

(** The projects of a stream without those whose path came earlier in it. *)
Fixpoint firstDeliveries (seen : gset string) (stream : list gitlab.Project)
  : list gitlab.Project :=
  match stream with
  | [] => []
  | p :: rest =>
      if decide (gitlab.PathWithNamespace p ∈ seen) then firstDeliveries seen rest
      else p :: firstDeliveries ({[gitlab.PathWithNamespace p]} ∪ seen) rest
  end.

Definition isRemoveAll (ev : Event) : bool :=
  match ev with
  | EvRemoveAll _ => true
  | _ => false
  end.

(** [accounted c c']: from [c] to [c'] the trace grew by some events, none
    of them a [RemoveAll] call, and the Visited Set grew by exactly the
    paths of the [CreateProjectNode] calls among them. *)
Definition accounted (c c' : Crawler) : Prop :=
  exists d,
    trace c' = trace c ++ d /\
    projectSet c' = projectSet c ∪ list_to_set (nodePaths d) /\
    Forall (fun ev => isRemoveAll ev = false) d.

(** Number of empty-ref warnings in a trace. *)
Definition emptyRefWarnings (tr : Trace) : nat :=
  length (List.filter isEmptyRefWarning tr).

(** The crawler as the consumer loop of [Crawl] finds it: after the
    cleanup, when it is configured, the start line and the start of the
    producer goroutine. *)
Definition loopStart (W : World) (streamErr : option error) (c : Crawler)
  : Crawler :=
  goProducer streamErr
    (logger InfoLevel None [] "Starting to crawl..."
       (if StorageCleanup (config c)
        then fst (storageRemoveAll W
                    (logger InfoLevel None [] "Cleanup storage..." c))
        else c)).

(** ** Scenarios

    Concrete collaborators, contexts and projects on which the functions
    above are run. *)

Definition cfg0 : Config :=
  {| GitlabHost := "https://gitlab.example.com";
     GitlabToken := "token";
     GitlabMaxRPS := 10;
     DefaultRefName := "main";
     StorageCleanup := false |}.

Definition cfgCleanup : Config :=
  {| GitlabHost := "https://gitlab.example.com";
     GitlabToken := "token";
     GitlabMaxRPS := 10;
     DefaultRefName := "main";
     StorageCleanup := true |}.

(** Enrichment as far as the scenarios need it: an empty ref of a top-level
    include becomes the default ref. *)
Definition defaultRefs (includes : list RemoteInclude) (owner : gitlab.Project)
    (defaultRef : string) : list RemoteInclude :=
  map (fun i =>
         if decide (Ref i = "") then
           mkRemoteInclude (Project i) defaultRef (Files i) (Children i)
         else i) includes.

(** Every write and every fetch succeeds; every descriptor parses to
    [includes]. *)
Definition okWorld (includes : list RemoteInclude) : World :=
  {| RemoveAll := fun _ => None;
     CreateProjectNode := fun _ _ => None;
     CreateIncludeEdge := fun _ _ => None;
     GetRawFileFromProject := fun _ _ _ _ _ => inl [];
     parseIncludes := fun _ _ => inl includes;
     enrichIncludes := defaultRefs |}.

(** The storage layer is down: every storage call fails. *)
Definition storageDown : error := ErrOpaque "neo4j: connection refused".

Definition downWorld : World :=
  {| RemoveAll := fun _ => Some storageDown;
     CreateProjectNode := fun _ _ => Some storageDown;
     CreateIncludeEdge := fun _ _ => Some storageDown;
     GetRawFileFromProject := fun _ _ _ _ _ => inl [];
     parseIncludes := fun _ _ => inl [];
     enrichIncludes := defaultRefs |}.

(** No project has a CI descriptor. *)
Definition notFound : error :=
  Errorf "failed to get raw file: %w" [] ErrRawFileNotFound.

Definition bareWorld : World :=
  {| RemoveAll := fun _ => None;
     CreateProjectNode := fun _ _ => None;
     CreateIncludeEdge := fun _ _ => None;
     GetRawFileFromProject := fun _ _ _ _ _ => inr notFound;
     parseIncludes := fun _ _ => inl [];
     enrichIncludes := defaultRefs |}.

(** Node creation fails for the project [bad] and for no other; every
    descriptor parses to [includes]. *)
Definition flakyWorld (bad : string) (includes : list RemoteInclude) : World :=
  {| RemoveAll := fun _ => None;
     CreateProjectNode :=
       fun _ path => if decide (path = bad) then Some storageDown else None;
     CreateIncludeEdge := fun _ _ => None;
     GetRawFileFromProject := fun _ _ _ _ _ => inl [];
     parseIncludes := fun _ _ => inl includes;
     enrichIncludes := defaultRefs |}.

(** A client that honours the context: the fetch fails with the context's
    error when the context is done at the time of the call. *)
Definition honouringWorld (includes : list RemoteInclude) : World :=
  {| RemoveAll := fun _ => None;
     CreateProjectNode := fun _ _ => None;
     CreateIncludeEdge := fun _ _ => None;
     GetRawFileFromProject := fun ctx tr _ _ _ =>
       match ctx tr with
       | Some e => inr (ErrContext e)
       | None => inl []
       end;
     parseIncludes := fun _ _ => inl includes;
     enrichIncludes := defaultRefs |}.

Definition liveCtx : Context := fun _ => None.

Definition doneCtx : Context := fun _ => Some Canceled.

(** A context that is cancelled once [n] collaborator calls have been made. *)
Definition cancelAfter (n : nat) : Context :=
  fun tr => if decide (n <= length tr)%nat then Some Canceled else None.

Definition teamApp : gitlab.Project :=
  {| gitlab.ID := 1;
     gitlab.PathWithNamespace := "team/app";
     gitlab.DefaultBranch := "main" |}.

Definition teamLib : gitlab.Project :=
  {| gitlab.ID := 2;
     gitlab.PathWithNamespace := "team/lib";
     gitlab.DefaultBranch := "main" |}.

Definition leaf (project : string) : RemoteInclude :=
  mkRemoteInclude project "main" ["ci.yml"] [].

Definition threeChildren : RemoteInclude :=
  mkRemoteInclude "team/shared-ci" "main" ["build.yml"]
    [leaf "team/one"; leaf "team/two"; leaf "team/three"].

(** A file of team/shared-ci that includes another file of the same
    project. *)
Definition sharedTwice : RemoteInclude :=
  mkRemoteInclude "team/shared-ci" "main" ["build.yml"]
    [mkRemoteInclude "team/shared-ci" "main" ["test.yml"] []].

Definition sharedCI : RemoteInclude :=
  mkRemoteInclude "team/shared-ci" "main" ["build.yml"] [leaf "team/base-ci"].

(** Project A's descriptor includes a file of project B, and that file
    includes the descriptor of project A. *)
Definition descriptorA : list Byte.byte := [Byte.x41].

Definition descriptorB : list Byte.byte := [Byte.x42].

Definition includeOfA : Resolver.Directive :=
  {| Resolver.dProject := "A"; Resolver.dRef := "main";
     Resolver.dFiles := [".gitlab-ci.yml"] |}.

Definition includeOfB : Resolver.Directive :=
  {| Resolver.dProject := "B"; Resolver.dRef := "main";
     Resolver.dFiles := ["ci.yml"] |}.

Definition cyclicRemote : Resolver.Remote :=
  {| Resolver.fetch := fun t =>
       if decide (t = ("A", "main", ".gitlab-ci.yml")) then Some descriptorA
       else if decide (t = ("B", "main", "ci.yml")) then Some descriptorB
       else None;
     Resolver.parse := fun raw =>
       if decide (raw = descriptorA) then Some [includeOfB]
       else if decide (raw = descriptorB) then Some [includeOfA]
       else None |}.

Definition cyclicRefs : gset Resolver.Triple :=
  {[ ("A", "main", ".gitlab-ci.yml"); ("B", "main", "ci.yml") ]}.

(** * Properties *)

(** ** Structure of include trees and of the recursion *)

Lemma RemoteInclude_tree_ind (P : RemoteInclude -> Prop) :
  (forall p r fs cs, Forall P cs -> P (mkRemoteInclude p r fs cs)) ->
  forall i, P i.
Proof.
  intros step. fix IH 1. intros [p r fs cs]. apply step.
  induction cs as [|ci cs IHcs]; constructor; [apply IH | exact IHcs].
Qed.

Lemma traverseIncludes_eq W parentName include c :
  traverseIncludes W parentName include c =
  match storageCreateProjectNode W (Project include)
          (markVisited (Project include) c) with
  | (c1, Some err) =>
      (c1, Some (Errorf "failed to write project to neo4j: %w" [] err))
  | (c1, None) =>
      match storageCreateIncludeEdge W
              {| storage.SourceProject := parentName;
                 storage.TargetProject := Project include;
                 storage.Ref := Ref include;
                 storage.Files := Files include |} c1 with
      | (c2, Some err) =>
          (c2, Some (Errorf "failed to write neo4j transaction: %w" [] err))
      | (c2, None) => traverseChildren W (Children include) c2
      end
  end.
Proof.
  destruct include as [p r fs cs]; simpl.
  destruct (CreateProjectNode W _ p); [reflexivity|].
  destruct (CreateIncludeEdge W _ _); [reflexivity|].
  generalize (emit (EvCreateIncludeEdge
    {| storage.SourceProject := parentName; storage.TargetProject := p;
       storage.Ref := r; storage.Files := fs |} None)
    (emit (EvCreateProjectNode p None) (markVisited p c))).
  induction cs as [|ci cs IHcs]; intros c0; [reflexivity|].
  cbn [traverseChildren].
  destruct (traverseIncludes W (Project ci) ci c0) as [c1 [err|]]; [reflexivity|].
  apply IHcs.
Qed.

Lemma traverseChildren_app W pre post c :
  traverseChildren W (pre ++ post) c =
  match traverseChildren W pre c with
  | (c1, Some err) => (c1, Some err)
  | (c1, None) => traverseChildren W post c1
  end.
Proof.
  revert c. induction pre as [|ci pre IH]; intros c; simpl; [reflexivity|].
  destruct (traverseIncludes W (Project ci) ci c) as [c1 [err|]]; [reflexivity|].
  apply IH.
Qed.

(** ** Every operation only adds: to the Visited Set and to the trace *)

Lemma grows_refl P c : grows P c c.
Proof.
  split; [reflexivity|]. split; [set_solver|].
  exists []. by rewrite app_nil_r.
Qed.

Lemma grows_trans P c1 c2 c3 : grows P c1 c2 -> grows P c2 c3 -> grows P c1 c3.
Proof.
  intros (Hc1 & Hv1 & d1 & Ht1 & Hd1) (Hc2 & Hv2 & d2 & Ht2 & Hd2).
  split; [congruence|]. split; [set_solver|].
  exists (d1 ++ d2). split; [|by apply Forall_app].
  by rewrite Ht2, Ht1, app_assoc.
Qed.

Lemma grows_weaken (P Q : Event -> Prop) c c' :
  (forall ev, P ev -> Q ev) -> grows P c c' -> grows Q c c'.
Proof.
  intros HPQ (Hc & Hv & d & Ht & Hd).
  split; [done|]. split; [done|].
  exists d. split; [done|]. eapply Forall_impl; eauto.
Qed.

Lemma grows_emit (P : Event -> Prop) ev c : P ev -> grows P c (emit ev c).
Proof.
  intros HP. split; [reflexivity|]. split; [set_solver|].
  exists [ev]. split; [reflexivity | by constructor].
Qed.

Lemma grows_markVisited P path c : grows P c (markVisited path c).
Proof.
  split; [reflexivity|]. split; [simpl; set_solver|].
  exists []. simpl. by rewrite app_nil_r.
Qed.

Lemma grows_visited P c c' path :
  grows P c c' -> path ∈ projectSet c -> path ∈ projectSet c'.
Proof. intros (_ & Hv & _) Hin. set_solver. Qed.

Lemma grows_prefix P c c' : grows P c c' -> trace c `prefix_of` trace c'.
Proof. intros (_ & _ & d & Ht & _). by exists d. Qed.

Ltac event_side :=
  first [ exact I | reflexivity | hnf; reflexivity
        | left; reflexivity | right; reflexivity ].

Ltac grows_peel :=
  repeat lazymatch goal with
    | |- grows _ ?c ?c => apply grows_refl
    | |- grows _ _ (emit _ ?x) =>
        apply (grows_trans _ _ x); [| apply grows_emit; event_side]
    | |- grows _ _ (markVisited _ ?x) =>
        apply (grows_trans _ _ x); [| apply grows_markVisited]
    end.

Lemma traverseChildren_grows_from W cs :
  Forall (fun i => forall parentName c,
            grows persistEvent c (fst (traverseIncludes W parentName i c))) cs ->
  forall c, grows persistEvent c (fst (traverseChildren W cs c)).
Proof.
  induction 1 as [|ci cs Hci _ IH]; intros c; simpl; [apply grows_refl|].
  specialize (Hci (Project ci) c).
  destruct (traverseIncludes W (Project ci) ci c) as [c1 [err|]]; simpl in *;
    [exact Hci|].
  eapply grows_trans; [exact Hci | apply IH].
Qed.

Lemma traverseIncludes_grows W include :
  forall parentName c,
    grows persistEvent c (fst (traverseIncludes W parentName include c)).
Proof.
  induction include as [p r fs cs IH] using RemoteInclude_tree_ind.
  intros parentName c. rewrite traverseIncludes_eq.
  unfold storageCreateProjectNode, storageCreateIncludeEdge; simpl.
  destruct (CreateProjectNode W _ p) as [err|]; simpl.
  { grows_peel. }
  destruct (CreateIncludeEdge W _ _) as [err|]; simpl.
  { grows_peel. }
  eapply grows_trans; [|by apply traverseChildren_grows_from]. grows_peel.
Qed.

Lemma traverseChildren_grows W cs c :
  grows persistEvent c (fst (traverseChildren W cs c)).
Proof.
  apply traverseChildren_grows_from, Forall_forall.
  intros i _. apply traverseIncludes_grows.
Qed.

Lemma rangeIncludes_grows W parentName includes :
  forall c, grows includeLoopEvent c (rangeIncludes W parentName includes c).
Proof.
  induction includes as [|i rest IH]; intros c; simpl; [apply grows_refl|].
  eapply grows_trans; [|apply IH].
  set (c1 := if decide (Ref i = "") then _ else c).
  assert (grows includeLoopEvent c c1) as H1.
  { subst c1. destruct (decide _); [|apply grows_refl].
    apply grows_emit. by right. }
  eapply grows_trans; [exact H1|].
  assert (grows includeLoopEvent c1 (fst (traverseIncludes W parentName i c1)))
    as H2.
  { eapply grows_weaken; [|apply traverseIncludes_grows]. intros ev Hev. by left. }
  destruct (traverseIncludes W parentName i c1) as [c2 [err|]]; simpl in *;
    [|exact H2].
  eapply grows_trans; [exact H2|]. apply grows_emit. by right.
Qed.

Lemma updateProjectInGraph_grows W ctx project c :
  grows anyEvent c (fst (updateProjectInGraph W ctx project c)).
Proof.
  unfold updateProjectInGraph.
  destruct (ctx (trace c)); [apply grows_refl|].
  destruct (decide _); [apply grows_refl|].
  unfold storageCreateProjectNode, gitlabGetRawFileFromProject,
    callParseIncludes; simpl.
  set (path := gitlab.PathWithNamespace project).
  destruct (CreateProjectNode W _ _) as [err|]; simpl; [grows_peel|].
  destruct (GetRawFileFromProject W _ _ _ _ _) as [raw|err]; simpl.
  2: { destruct (errorsIs _ _); simpl; grows_peel. }
  destruct (parseIncludes W _ _) as [includes|err]; simpl; [|grows_peel].
  eapply grows_trans;
    [|eapply grows_weaken; [|apply rangeIncludes_grows]; done].
  grows_peel.
Qed.

Lemma runOp_grows W c op : grows anyEvent c (runOp W c op).
Proof.
  destruct op; simpl; [apply updateProjectInGraph_grows|].
  eapply grows_weaken; [|apply traverseIncludes_grows]. done.
Qed.

Lemma runOps_grows W ops : forall c, grows anyEvent c (runOps W ops c).
Proof.
  induction ops as [|op ops IH]; intros c; simpl; [apply grows_refl|].
  eapply grows_trans; [apply (runOp_grows W c op) | apply IH].
Qed.

Lemma rangeResultChan_grows W ctx stream :
  forall c, grows anyEvent c (rangeResultChan W ctx stream c).
Proof.
  induction stream as [|p rest IH]; intros c; simpl; [apply grows_refl|].
  destruct (decide _); [apply IH|].
  pose proof (updateProjectInGraph_grows W ctx p c) as H.
  destruct (updateProjectInGraph W ctx p c) as [c1 [err|]]; simpl in *.
  - eapply grows_trans; [exact H|].
    eapply grows_trans; [by apply grows_emit | apply IH].
  - eapply grows_trans; [exact H | apply IH].
Qed.

Lemma newEvents_app c c' delta :
  trace c' = trace c ++ delta -> newEvents c c' = delta.
Proof. intros Ht. unfold newEvents. by rewrite Ht, drop_app_length. Qed.

Lemma newEvents_same c : newEvents c c = [].
Proof. apply newEvents_app. by rewrite app_nil_r. Qed.

Lemma grows_newEvents P c c' : grows P c c' -> Forall P (newEvents c c').
Proof.
  intros (_ & _ & d & Ht & Hd). by rewrite (newEvents_app _ _ _ Ht).
Qed.

Lemma grows_trace P c c' :
  grows P c c' -> trace c' = trace c ++ newEvents c c'.
Proof.
  intros (_ & _ & d & Ht & _). by rewrite (newEvents_app _ _ _ Ht).
Qed.

Ltac list_member H :=
  repeat match type of H with
    | _ ∈ _ :: _ => apply elem_of_cons in H as [H|H]
    | _ ∈ [] => by apply elem_of_nil in H
    end.

Ltac new_events :=
  erewrite newEvents_app
    by (simpl; rewrite <- ?app_assoc; simpl; reflexivity).

(** ** The Project Processor *)

Ltac decide_by_computation :=
  apply (bool_decide_unpack _); vm_compute; exact I.

(** C7: if the context is already cancelled when Process is invoked, the
    call returns the context's cancellation error at once and leaves the
    crawler as it was: the Visited Set is not touched and no node write,
    edge write or fetch is made. *)
Theorem cancelled_process_returns_at_once W ctx project c e :
  ctx (trace c) = Some e ->
  updateProjectInGraph W ctx project c = (c, Some (ErrContext e)).
Proof. intros Hdone. unfold updateProjectInGraph. by rewrite Hdone. Qed.

Lemma cancelled_process_returns_at_once_witness :
  doneCtx (trace (New cfg0)) = Some Canceled /\
  updateProjectInGraph (okWorld [sharedCI]) doneCtx teamApp (New cfg0)
  = (New cfg0, Some (ErrContext Canceled)).
Proof.
  split; [reflexivity|].
  apply (cancelled_process_returns_at_once (okWorld [sharedCI]) doneCtx teamApp
           (New cfg0) Canceled).
  reflexivity.
Defined.

Lemma visited_process_is_noop_aux W ctx project c :
  gitlab.PathWithNamespace project ∈ projectSet c ->
  updateProjectInGraph W ctx project c = (c, ctxResult ctx (trace c)).
Proof.
  intros Hin. unfold updateProjectInGraph, ctxResult.
  destruct (ctx (trace c)); [reflexivity|].
  by rewrite decide_True.
Qed.

(** C8, as the code has it: for a project whose path is already in the
    Visited Set, Process is a no-op (the crawler is returned as it was: no
    node creation, no fetch, no edge write, Visited Set unchanged); the
    result is nil when the context is live and the cancellation error when
    it is done, because the cancellation check comes first. *)
Theorem visited_process_is_noop W ctx project c :
  gitlab.PathWithNamespace project ∈ projectSet c ->
  updateProjectInGraph W ctx project c = (c, ctxResult ctx (trace c)).
Proof.
  intros Hin. unfold updateProjectInGraph, ctxResult.
  destruct (ctx (trace c)) as [e|].
  - (* the context is done: the call returns before the lookup *)
    reflexivity.
  - (* the lookup finds the path *)
    destruct (decide (gitlab.PathWithNamespace project ∈ projectSet c));
      [reflexivity | contradiction].
Qed.

Lemma visited_process_is_noop_witness :
  gitlab.PathWithNamespace teamApp
    ∈ projectSet (fst (updateProjectInGraph bareWorld liveCtx teamApp (New cfg0))) /\
  updateProjectInGraph bareWorld liveCtx teamApp
    (fst (updateProjectInGraph bareWorld liveCtx teamApp (New cfg0)))
  = (fst (updateProjectInGraph bareWorld liveCtx teamApp (New cfg0)), None).
Proof.
  assert (gitlab.PathWithNamespace teamApp
    ∈ projectSet (fst (updateProjectInGraph bareWorld liveCtx teamApp (New cfg0))))
    as Hin by decide_by_computation.
  split; [exact Hin|].
  apply (visited_process_is_noop bareWorld liveCtx teamApp _ Hin).
Defined.

(** C8, as stated, fails when the context is done: the project is in the
    Visited Set, the context is cancelled after its first Process call, and
    the second call returns the cancellation error, not nil. *)
Lemma visited_process_cancelled_counterexample :
  let c1 := fst (updateProjectInGraph bareWorld (cancelAfter 1) teamApp (New cfg0)) in
  gitlab.PathWithNamespace teamApp ∈ projectSet c1 /\
  updateProjectInGraph bareWorld (cancelAfter 1) teamApp c1
  = (c1, Some (ErrContext Canceled)) /\
  snd (updateProjectInGraph bareWorld (cancelAfter 1) teamApp c1) <> None.
Proof.
  cbv zeta. split; [decide_by_computation|].
  split; [|discriminate]. reflexivity.
Qed.

(** C4: when the descriptor fetch of a Process call answers with the
    file-not-found error (possibly wrapped), the call returns nil, the
    project is in the Visited Set, and the call made exactly two
    collaborator calls: one successful [CreateProjectNode] for the project
    and the fetch; so exactly one node call for it and no
    [CreateIncludeEdge] call. *)
Theorem not_found_is_success W ctx project c id file ref err :
  let r := updateProjectInGraph W ctx project c in
  EvGetRawFileFromProject id file ref (inr err) ∈ newEvents c (fst r) ->
  errorsIs err ErrRawFileNotFound = true ->
  snd r = None /\
  gitlab.PathWithNamespace project ∈ projectSet (fst r) /\
  newEvents c (fst r) =
    [EvCreateProjectNode (gitlab.PathWithNamespace project) None;
     EvGetRawFileFromProject (gitlab.ID project) gitlabCIFileName
       (gitlab.DefaultBranch project) (inr err)] /\
  nodeCalls (gitlab.PathWithNamespace project) (newEvents c (fst r)) = 1 /\
  edgesOf (newEvents c (fst r)) = [].
Proof.
  cbv zeta. unfold updateProjectInGraph.
  destruct (ctx (trace c)); simpl.
  { rewrite newEvents_same. by intros ?%elem_of_nil. }
  destruct (decide _) as [|Hfresh]; simpl.
  { rewrite newEvents_same. by intros ?%elem_of_nil. }
  unfold storageCreateProjectNode, gitlabGetRawFileFromProject,
    callParseIncludes; simpl.
  set (path := gitlab.PathWithNamespace project).
  destruct (CreateProjectNode W _ _) as [e1|]; simpl.
  { new_events. intros Hin. list_member Hin. discriminate. }
  destruct (GetRawFileFromProject W _ _ _ _ _) as [raw|e2]; simpl.
  - (* the fetch succeeded: no event of this call is a failed fetch *)
    destruct (parseIncludes W _ _) as [includes|e3]; simpl.
    2: { new_events. intros Hin. list_member Hin; discriminate. }
    match goal with
    | |- context [rangeIncludes W ?pn ?incs ?c0] =>
        pose proof (rangeIncludes_grows W pn incs c0) as Hg;
        set (c3 := rangeIncludes W pn incs c0) in *
    end.
    apply grows_newEvents in Hg as Hloop.
    apply grows_trace in Hg. simpl in Hg. rewrite <- !app_assoc in Hg. simpl in Hg.
    rewrite (newEvents_app _ _ _ Hg).
    intros Hin _. exfalso.
    rewrite !elem_of_cons in Hin.
    destruct Hin as [?|[?|[?|Hin]]]; try discriminate.
    rewrite Forall_forall in Hloop. apply Hloop in Hin.
    destruct Hin; discriminate.
  - destruct (errorsIs e2 ErrRawFileNotFound) eqn:Hnf; simpl; new_events.
    + intros Hin Herr.
      assert (err = e2) as -> by (list_member Hin; congruence).
      split; [reflexivity|].
      split; [simpl; by apply elem_of_union_l, elem_of_singleton|].
      split; [reflexivity|]. split; [|reflexivity].
      unfold nodeCalls; simpl. by rewrite bool_decide_true.
    + intros Hin Herr.
      assert (err = e2) as -> by (list_member Hin; congruence). congruence.
Qed.

Lemma not_found_is_success_witness :
  snd (updateProjectInGraph bareWorld liveCtx teamApp (New cfg0)) = None /\
  newEvents (New cfg0)
    (fst (updateProjectInGraph bareWorld liveCtx teamApp (New cfg0)))
  = [EvCreateProjectNode "team/app" None;
     EvGetRawFileFromProject 1 ".gitlab-ci.yml" "main" (inr notFound)].
Proof.
  pose proof (not_found_is_success bareWorld liveCtx teamApp (New cfg0)
                1%Z ".gitlab-ci.yml" "main" notFound) as H.
  cbv zeta in H.
  destruct H as (Hres & _ & Hev & _).
  - apply list_elem_of_further, list_elem_of_here.
  - reflexivity.
  - split; [exact Hres | exact Hev].
Defined.

(** X18: a Process call that starts with a live context and fails has
    failed after the mark, in one of three ways: node creation, a descriptor
    fetch whose error is not the not-found error, or the parse; each wrapped
    under its own message. *)
Lemma process_failure_kinds W ctx project c err :
  ctx (trace c) = None ->
  snd (updateProjectInGraph W ctx project c) = Some err ->
  (gitlab.PathWithNamespace project ∉ projectSet c) /\
  ((exists e, err = Errorf "failed to write project to neo4j: %w" [] e) \/
   (exists e, err = Errorf "failed to get file %s: %w" [ArgStr gitlabCIFileName] e
              /\ errorsIs e ErrRawFileNotFound = false) \/
   (exists e, err = Errorf "failed to parse includes for %d: %w"
                      [ArgInt (gitlab.ID project)] e)).
Proof.
  intros Hlive. unfold updateProjectInGraph. rewrite Hlive.
  destruct (decide _) as [|Hfresh]; [discriminate|].
  unfold storageCreateProjectNode, gitlabGetRawFileFromProject,
    callParseIncludes; simpl.
  destruct (CreateProjectNode W _ _) as [e1|]; simpl.
  { intros [= <-]. split; [done|]. left. by eexists. }
  destruct (GetRawFileFromProject W _ _ _ _ _) as [raw|e2]; simpl.
  - destruct (parseIncludes W _ _) as [includes|e3]; simpl; [discriminate|].
    intros [= <-]. split; [done|]. right. right. by eexists.
  - destruct (errorsIs e2 ErrRawFileNotFound) eqn:Hnf; simpl; [discriminate|].
    intros [= <-]. split; [done|]. right. left. by eexists.
Qed.

(** A Process call with a live context leaves the project's path in the
    Visited Set, whatever its result. *)
Lemma process_marks_visited W ctx project c :
  ctx (trace c) = None ->
  gitlab.PathWithNamespace project
    ∈ projectSet (fst (updateProjectInGraph W ctx project c)).
Proof.
  intros Hlive.
  destruct (decide (gitlab.PathWithNamespace project ∈ projectSet c)) as [Hin|Hfresh].
  { by rewrite visited_process_is_noop_aux. }
  unfold updateProjectInGraph. rewrite Hlive. rewrite decide_False by done.
  unfold storageCreateProjectNode, gitlabGetRawFileFromProject,
    callParseIncludes; simpl.
  set (path := gitlab.PathWithNamespace project).
  assert (path ∈ projectSet (markVisited path c)) as Hmark.
  { simpl. by apply elem_of_union_l, elem_of_singleton. }
  destruct (CreateProjectNode W _ _) as [e1|]; simpl; [exact Hmark|].
  destruct (GetRawFileFromProject W _ _ _ _ _) as [raw|e2]; simpl.
  2: { by destruct (errorsIs _ _). }
  destruct (parseIncludes W _ _) as [includes|e3]; simpl; [|exact Hmark].
  eapply grows_visited; [apply rangeIncludes_grows|]. exact Hmark.
Qed.

(** C10, as the code has it: a Process call that fails after the mark
    leaves the path in the Visited Set; the mark survives every later
    operation of the run, and every later Process call for that path is a
    no-op that retries nothing: it returns nil when its context is live and
    the cancellation error when it is done. *)
Theorem failed_project_is_not_retried W ctx project c ops ctx' project' :
  ctx (trace c) = None ->
  snd (updateProjectInGraph W ctx project c) <> None ->
  gitlab.PathWithNamespace project' = gitlab.PathWithNamespace project ->
  let c1 := fst (updateProjectInGraph W ctx project c) in
  let c2 := runOps W ops c1 in
  gitlab.PathWithNamespace project ∈ projectSet c1 /\
  gitlab.PathWithNamespace project ∈ projectSet c2 /\
  updateProjectInGraph W ctx' project' c2 = (c2, ctxResult ctx' (trace c2)).
Proof.
  intros Hlive _ Hsame c1 c2.
  assert (gitlab.PathWithNamespace project ∈ projectSet c1) as H1
    by (by apply process_marks_visited).
  assert (gitlab.PathWithNamespace project ∈ projectSet c2) as H2
    by (eapply grows_visited; [apply runOps_grows | exact H1]).
  split; [exact H1|]. split; [exact H2|].
  apply visited_process_is_noop_aux. by rewrite Hsame.
Qed.

Lemma failed_project_is_not_retried_witness :
  let c1 := fst (updateProjectInGraph downWorld liveCtx teamApp (New cfg0)) in
  let c2 := runOps downWorld [OpProcess liveCtx teamLib] c1 in
  snd (updateProjectInGraph downWorld liveCtx teamApp (New cfg0))
  = Some (Errorf "failed to write project to neo4j: %w" [] storageDown) /\
  updateProjectInGraph downWorld liveCtx teamApp c2 = (c2, None).
Proof.
  cbv zeta. split; [reflexivity|].
  refine (proj2 (proj2 (failed_project_is_not_retried downWorld liveCtx teamApp
            (New cfg0) [OpProcess liveCtx teamLib] liveCtx teamApp _ _ _)));
    [reflexivity | discriminate | reflexivity].
Defined.

(** C10, as stated, fails when the context is done at the later call: node
    creation fails for the project, the context is cancelled afterwards,
    and the next Process call for the same path returns the cancellation
    error, not nil. *)
Lemma failed_project_cancelled_counterexample :
  let r1 := updateProjectInGraph downWorld (cancelAfter 1) teamApp (New cfg0) in
  snd r1 = Some (Errorf "failed to write project to neo4j: %w" [] storageDown) /\
  gitlab.PathWithNamespace teamApp ∈ projectSet (fst r1) /\
  updateProjectInGraph downWorld (cancelAfter 1) teamApp (fst r1)
  = (fst r1, Some (ErrContext Canceled)).
Proof.
  cbv zeta. split; [reflexivity|]. split; [decide_by_computation | reflexivity].
Qed.

(** ** The Crawl Orchestrator *)

(** With a context that is never cancelled, every project the stream
    delivered is in the Visited Set when the queue is drained. *)
Lemma drained_stream_is_visited W ctx stream :
  (forall tr, ctx tr = None) ->
  forall c p, p ∈ stream ->
    gitlab.PathWithNamespace p ∈ projectSet (rangeResultChan W ctx stream c).
Proof.
  intros Hlive. induction stream as [|q rest IH]; intros c p Hin.
  { by apply elem_of_nil in Hin. }
  simpl. apply elem_of_cons in Hin as [->|Hin].
  - destruct (decide _) as [Hseen|Hfresh].
    { eapply grows_visited; [apply rangeResultChan_grows | exact Hseen]. }
    pose proof (process_marks_visited W ctx q c (Hlive _)) as Hmark.
    destruct (updateProjectInGraph W ctx q c) as [c1 [err|]]; simpl in *;
      (eapply grows_visited; [apply rangeResultChan_grows|]); exact Hmark.
  - destruct (decide _); [by apply IH|].
    destruct (updateProjectInGraph W ctx q c) as [c1 [err|]]; by apply IH.
Qed.

(** ** The Graph Persister *)

(** The first thing [traverseIncludes] does is to call [CreateProjectNode]
    for the include's target; whatever follows is writes only. *)
Lemma traverseIncludes_first_event W parentName include c :
  exists rest,
    newEvents c (fst (traverseIncludes W parentName include c))
    = EvCreateProjectNode (Project include)
        (CreateProjectNode W (trace c) (Project include)) :: rest /\
    Forall persistEvent rest.
Proof.
  rewrite traverseIncludes_eq.
  unfold storageCreateProjectNode, storageCreateIncludeEdge; simpl.
  destruct (CreateProjectNode W _ _) as [e1|]; simpl.
  { exists []. split; [by new_events | constructor]. }
  destruct (CreateIncludeEdge W _ _) as [e2|]; simpl.
  { eexists [_]. split; [by new_events|]. by repeat constructor. }
  match goal with
  | |- context [traverseChildren W ?cs ?c0] =>
      pose proof (traverseChildren_grows W cs c0) as Hg;
      set (c3 := fst (traverseChildren W cs c0)) in *
  end.
  apply grows_newEvents in Hg as Hrest.
  apply grows_trace in Hg. simpl in Hg. rewrite <- !app_assoc in Hg. simpl in Hg.
  eexists (_ :: _). split; [by apply newEvents_app|].
  constructor; [reflexivity | exact Hrest].
Qed.

(** The include loop of the processor runs every include through
    [traverseIncludes], whatever the earlier ones returned. *)
Lemma rangeIncludes_attempts_all W parentName includes :
  forall c i, i ∈ includes ->
    exists res,
      EvCreateProjectNode (Project i) res
        ∈ newEvents c (rangeIncludes W parentName includes c).
Proof.
  induction includes as [|j rest IH]; intros c i Hin.
  { by apply elem_of_nil in Hin. }
  simpl.
  set (c1 := if decide (Ref j = "") then _ else c).
  assert (grows includeLoopEvent c c1) as H1.
  { subst c1. destruct (decide _); [|apply grows_refl]. apply grows_emit. by right. }
  set (c2 := match traverseIncludes W parentName j c1 with
             | (c', Some err) => _
             | (c', None) => c'
             end).
  assert (grows includeLoopEvent (fst (traverseIncludes W parentName j c1)) c2)
    as H2.
  { subst c2. destruct (traverseIncludes W parentName j c1) as [c' [err|]];
      simpl; [|apply grows_refl]. apply grows_emit. by right. }
  pose proof (rangeIncludes_grows W parentName rest c2) as H3.
  apply elem_of_cons in Hin as [->|Hin].
  - destruct (traverseIncludes_first_event W parentName j c1) as (d & Hd & _).
    pose proof (grows_trace _ _ _ (traverseIncludes_grows W j parentName c1)) as Ht.
    rewrite Hd in Ht.
    apply grows_trace in H1, H2, H3.
    eexists. erewrite newEvents_app; last first.
    { rewrite H3, H2, Ht, H1. rewrite <- !app_assoc. reflexivity. }
    rewrite !elem_of_app. right. left. apply list_elem_of_here.
  - destruct (IH c2 i Hin) as (res & Hres). exists res.
    assert (grows includeLoopEvent c c2) as H12.
    { eapply grows_trans; [exact H1|]. eapply grows_trans; [|exact H2].
      eapply grows_weaken; [|apply traverseIncludes_grows]. intros ev Hev. by left. }
    apply grows_trace in H12, H3.
    erewrite newEvents_app; last first.
    { rewrite H3, H12. rewrite <- !app_assoc. reflexivity. }
    rewrite !elem_of_app. by right.
Qed.

Lemma traverseIncludes_own_writes W parentName include c :
  CreateProjectNode W (trace c) (Project include) = None ->
  CreateIncludeEdge W (trace c ++ [EvCreateProjectNode (Project include) None])
    (includeEdge parentName include) = None ->
  traverseIncludes W parentName include c
  = traverseChildren W (Children include) (afterOwnWrites parentName include c).
Proof.
  intros Hnode Hedge. rewrite traverseIncludes_eq.
  unfold storageCreateProjectNode, storageCreateIncludeEdge; simpl.
  rewrite Hnode. simpl. fold (includeEdge parentName include).
  rewrite Hedge. reflexivity.
Qed.

(** A traversal that returns nil wrote the include's node and its edge. *)
Lemma traverseIncludes_success W parentName include c :
  snd (traverseIncludes W parentName include c) = None ->
  exists rest,
    newEvents c (fst (traverseIncludes W parentName include c))
    = EvCreateProjectNode (Project include) None
      :: EvCreateIncludeEdge (includeEdge parentName include) None :: rest /\
    Forall persistEvent rest.
Proof.
  rewrite traverseIncludes_eq.
  unfold storageCreateProjectNode, storageCreateIncludeEdge; simpl.
  destruct (CreateProjectNode W _ _) as [e1|]; simpl; [discriminate|].
  fold (includeEdge parentName include).
  destruct (CreateIncludeEdge W _ _) as [e2|]; simpl; [discriminate|].
  intros _.
  match goal with
  | |- context [traverseChildren W ?cs ?c0] =>
      pose proof (traverseChildren_grows W cs c0) as Hg;
      set (c3 := fst (traverseChildren W cs c0)) in *
  end.
  apply grows_newEvents in Hg as Hrest.
  apply grows_trace in Hg. simpl in Hg. rewrite <- !app_assoc in Hg. simpl in Hg.
  eexists. split; [by apply newEvents_app | exact Hrest].
Qed.

Lemma traverseChildren_success W cs :
  forall c, snd (traverseChildren W cs c) = None ->
  forall cj, cj ∈ cs ->
    EvCreateProjectNode (Project cj) None
      ∈ newEvents c (fst (traverseChildren W cs c)) /\
    exists e, storage.TargetProject e = Project cj /\
      EvCreateIncludeEdge e None ∈ newEvents c (fst (traverseChildren W cs c)).
Proof.
  induction cs as [|ci cs IH]; intros c Hok cj Hin.
  { by apply elem_of_nil in Hin. }
  simpl in *.
  pose proof (traverseIncludes_success W (Project ci) ci c) as Hci.
  pose proof (traverseIncludes_grows W ci (Project ci) c) as Hg1.
  destruct (traverseIncludes W (Project ci) ci c) as [c1 [err|]]; simpl in *;
    [discriminate|].
  destruct (Hci eq_refl) as (rest & Hev & _).
  pose proof (traverseChildren_grows W cs c1) as Hg2.
  apply grows_trace in Hg1, Hg2. rewrite Hev in Hg1.
  assert (newEvents c (fst (traverseChildren W cs c1))
          = (EvCreateProjectNode (Project ci) None
             :: EvCreateIncludeEdge (includeEdge (Project ci) ci) None :: rest)
            ++ newEvents c1 (fst (traverseChildren W cs c1))) as ->.
  { apply newEvents_app. rewrite Hg2 at 1. rewrite Hg1.
    by rewrite <- app_assoc. }
  apply elem_of_cons in Hin as [->|Hin].
  - split.
    + apply elem_of_app. left. apply list_elem_of_here.
    + exists (includeEdge (Project ci) ci). split; [reflexivity|].
      apply elem_of_app. left. apply list_elem_of_further, list_elem_of_here.
  - destruct (IH c1 Hok cj Hin) as (Hn & e & He & Hee). split.
    + apply elem_of_app. by right.
    + exists e. split; [exact He|]. apply elem_of_app. by right.
Qed.

(** C3: when the children before [ck] were persisted and persisting [ck]
    fails with [err], [traverseIncludes] returns [err] wrapped with [ck]'s
    project; the crawler it returns is the one [ck]'s traversal left, so
    its trace is the include's own two writes, then what the earlier
    children wrote (their nodes and edges are all there, with nil results),
    then what [ck]'s traversal did, and nothing of the children after [ck];
    and the include loop of the processor runs every top-level include
    through [traverseIncludes], whatever its siblings returned. *)
Theorem child_failure_aborts_subtree W parentName include pre ck post c err :
  Children include = pre ++ ck :: post ->
  CreateProjectNode W (trace c) (Project include) = None ->
  CreateIncludeEdge W (trace c ++ [EvCreateProjectNode (Project include) None])
    (includeEdge parentName include) = None ->
  let c0 := afterOwnWrites parentName include c in
  snd (traverseChildren W pre c0) = None ->
  let c1 := fst (traverseChildren W pre c0) in
  snd (traverseIncludes W (Project ck) ck c1) = Some err ->
  let c2 := fst (traverseIncludes W (Project ck) ck c1) in
  traverseIncludes W parentName include c
  = (c2, Some (Errorf "failed to write child includes for %s: %w"
                      [ArgStr (Project ck)] err)) /\
  trace c2 = trace c0 ++ newEvents c0 c1 ++ newEvents c1 c2 /\
  (forall cj, cj ∈ pre ->
     EvCreateProjectNode (Project cj) None ∈ newEvents c0 c1 /\
     exists e, storage.TargetProject e = Project cj /\
       EvCreateIncludeEdge e None ∈ newEvents c0 c1) /\
  (forall top c' i, i ∈ top ->
     exists res, EvCreateProjectNode (Project i) res
                   ∈ newEvents c' (rangeIncludes W parentName top c')).
Proof.
  intros Hcs Hnode Hedge c0 Hpre c1 Hck c2.
  split; [|split; [|split]].
  - rewrite (traverseIncludes_own_writes _ _ _ _ Hnode Hedge), Hcs.
    rewrite traverseChildren_app. fold c0.
    destruct (traverseChildren W pre c0) as [c1' [e|]] eqn:E1; simpl in *;
      [discriminate|].
    subst c1 c2.
    destruct (traverseIncludes W (Project ck) ck c1') as [c2' [e|]]; simpl in *;
      [|discriminate].
    by injection Hck as ->.
  - pose proof (traverseChildren_grows W pre c0) as Hg1.
    pose proof (traverseIncludes_grows W ck (Project ck) c1) as Hg2.
    apply grows_trace in Hg1, Hg2. fold c1 in Hg1. fold c2 in Hg2.
    rewrite Hg2 at 1. rewrite Hg1 at 1. by rewrite <- app_assoc.
  - intros cj Hin. by apply traverseChildren_success.
  - intros top c' i Hin. by apply rangeIncludes_attempts_all.
Qed.

Lemma child_failure_aborts_subtree_witness :
  traverseIncludes (flakyWorld "team/two" []) "team/app" threeChildren (New cfg0)
  = (fst (traverseIncludes (flakyWorld "team/two" []) "team/two" (leaf "team/two")
            (fst (traverseChildren (flakyWorld "team/two" []) [leaf "team/one"]
                    (afterOwnWrites "team/app" threeChildren (New cfg0))))),
     Some (Errorf "failed to write child includes for %s: %w"
             [ArgStr "team/two"]
             (Errorf "failed to write project to neo4j: %w" [] storageDown))).
Proof.
  apply (proj1 (child_failure_aborts_subtree (flakyWorld "team/two" []) "team/app"
                  threeChildren [leaf "team/one"] (leaf "team/two")
                  [leaf "team/three"] (New cfg0)
                  (Errorf "failed to write project to neo4j: %w" [] storageDown)
                  eq_refl eq_refl eq_refl eq_refl eq_refl)).
Defined.

(** Child 2 of 3 fails on its node: the first child's node and edge are in
    the trace, and no call was made for the third. *)
Example second_child_of_three_fails :
  newEvents (New cfg0)
    (fst (traverseIncludes (flakyWorld "team/two" []) "team/app" threeChildren
            (New cfg0)))
  = [EvCreateProjectNode "team/shared-ci" None;
     EvCreateIncludeEdge (includeEdge "team/app" threeChildren) None;
     EvCreateProjectNode "team/one" None;
     EvCreateIncludeEdge (includeEdge "team/one" (leaf "team/one")) None;
     EvCreateProjectNode "team/two" (Some storageDown)].
Proof. reflexivity. Qed.

(** At the top level: the subtree of the first include is cut short by the
    failure of team/two, which is logged, and the sibling include of
    team/other is persisted all the same. *)
Example failed_include_does_not_stop_siblings :
  newEvents (New cfg0)
    (fst (updateProjectInGraph
            (flakyWorld "team/two" [threeChildren; leaf "team/other"])
            liveCtx teamApp (New cfg0)))
  = [EvCreateProjectNode "team/app" None;
     EvGetRawFileFromProject 1 ".gitlab-ci.yml" "main" (inl []);
     EvParseIncludes [] (inl [threeChildren; leaf "team/other"]);
     EvCreateProjectNode "team/shared-ci" None;
     EvCreateIncludeEdge (includeEdge "team/app" threeChildren) None;
     EvCreateProjectNode "team/one" None;
     EvCreateIncludeEdge (includeEdge "team/one" (leaf "team/one")) None;
     EvCreateProjectNode "team/two" (Some storageDown);
     EvLog ErrorLevel
       (Some (Errorf "failed to write child includes for %s: %w"
                [ArgStr "team/two"]
                (Errorf "failed to write project to neo4j: %w" [] storageDown)))
       [("Project", ArgStr "team/shared-ci")] "failed to parse include";
     EvCreateProjectNode "team/other" None;
     EvCreateIncludeEdge (includeEdge "team/app" (leaf "team/other")) None].
Proof. reflexivity. Qed.

(** C1, on the code: persisting the include of team/shared-ci (whose file
    includes team/base-ci) under the parent team/app succeeds and writes the
    edge team/app -> team/shared-ci, but the edge written for the child runs
    from team/base-ci to team/base-ci: the recursive call passes the child's
    own project as the parent name, where the claim has the edge
    team/shared-ci -> team/base-ci. *)
Theorem child_edge_source_is_child_itself :
  let r := traverseIncludes (okWorld []) "team/app" sharedCI (New cfg0) in
  snd r = None /\
  edgesOf (trace (fst r))
  = [ {| storage.SourceProject := "team/app";
         storage.TargetProject := "team/shared-ci";
         storage.Ref := "main";
         storage.Files := ["build.yml"] |};
      {| storage.SourceProject := "team/base-ci";
         storage.TargetProject := "team/base-ci";
         storage.Ref := "main";
         storage.Files := ["ci.yml"] |} ] /\
  includeEdge (Project sharedCI) (leaf "team/base-ci") ∉ edgesOf (trace (fst r)).
Proof.
  cbv zeta. split; [reflexivity|].
  assert (edgesOf (trace (fst (traverseIncludes (okWorld []) "team/app" sharedCI
                                 (New cfg0))))
          = [includeEdge "team/app" sharedCI;
             includeEdge "team/base-ci" (leaf "team/base-ci")]) as Hedges
    by reflexivity.
  split; [exact Hedges|].
  rewrite Hedges. intros Hin. list_member Hin; discriminate.
Qed.

(** X19: of the edges a traversal hands to the storage layer, whether it
    succeeds or fails, only the first, if there is one, is the edge from the
    parent to the include; all the others are self loops, since the
    recursive call names the child itself as parent. *)
Lemma edgesOf_app tr1 tr2 : edgesOf (tr1 ++ tr2) = edgesOf tr1 ++ edgesOf tr2.
Proof.
  induction tr1 as [|ev tr1 IH]; [reflexivity|].
  destruct ev; simpl; by rewrite IH.
Qed.

Lemma traverseChildren_edges_from W cs :
  Forall (fun i => forall c,
            Forall selfLoop
              (edgesOf (newEvents c (fst (traverseIncludes W (Project i) i c)))))
         cs ->
  forall c, Forall selfLoop (edgesOf (newEvents c (fst (traverseChildren W cs c)))).
Proof.
  induction 1 as [|ci cs Hci _ IH]; intros c; simpl.
  { rewrite newEvents_same. constructor. }
  specialize (Hci c).
  pose proof (traverseIncludes_grows W ci (Project ci) c) as Hg1.
  destruct (traverseIncludes W (Project ci) ci c) as [c1 [err|]]; simpl in *;
    [exact Hci|].
  pose proof (traverseChildren_grows W cs c1) as Hg2.
  apply grows_trace in Hg1, Hg2.
  erewrite newEvents_app; last first.
  { rewrite Hg2 at 1. rewrite Hg1. by rewrite <- app_assoc. }
  rewrite edgesOf_app. apply Forall_app. split; [exact Hci | apply IH].
Qed.

Lemma traverseIncludes_edges W include :
  forall parentName c,
    exists own rest,
      edgesOf (newEvents c (fst (traverseIncludes W parentName include c)))
      = own ++ rest /\
      (own = [] \/ own = [includeEdge parentName include]) /\
      Forall selfLoop rest.
Proof.
  induction include as [p r fs cs IH] using RemoteInclude_tree_ind.
  intros parentName c.
  rewrite traverseIncludes_eq.
  unfold storageCreateProjectNode, storageCreateIncludeEdge; simpl.
  destruct (CreateProjectNode W _ _) as [e1|] eqn:Hnode; simpl.
  { exists [], []. new_events. split; [reflexivity|]. split; [by left | constructor]. }
  fold (includeEdge parentName (mkRemoteInclude p r fs cs)).
  destruct (CreateIncludeEdge W _ _) as [e2|] eqn:Hedge; simpl.
  { exists [includeEdge parentName (mkRemoteInclude p r fs cs)], []. new_events.
    split; [reflexivity|]. split; [by right | constructor]. }
  match goal with
  | |- context [traverseChildren W cs ?c0] =>
      pose proof (traverseChildren_grows W cs c0) as Hg;
      pose proof (traverseChildren_edges_from W cs) as Hloops;
      specialize (fun H => Hloops H c0);
      set (c3 := fst (traverseChildren W cs c0)) in *;
      set (d := newEvents c0 c3) in *
  end.
  exists [includeEdge parentName (mkRemoteInclude p r fs cs)], (edgesOf d).
  apply grows_trace in Hg. simpl in Hg. rewrite <- !app_assoc in Hg. simpl in Hg.
  rewrite (newEvents_app _ _ _ Hg). split; [reflexivity|]. split; [by right|].
  apply Hloops.
  eapply Forall_impl; [exact IH|]. intros ci Hci c'. simpl in Hci.
  destruct (Hci (Project ci) c') as (own & rest & -> & Hown & Hrest).
  apply Forall_app. split; [|exact Hrest].
  destruct Hown as [->| ->]; [constructor|].
  constructor; [reflexivity | constructor].
Qed.

(** ** The Visited Set *)

Lemma nodeCalls_app path tr1 tr2 :
  nodeCalls path (tr1 ++ tr2) = nodeCalls path tr1 + nodeCalls path tr2.
Proof. unfold nodeCalls. by rewrite List.filter_app, length_app. Qed.

Lemma targets_eq path include :
  targets path include
  = (if decide (Project include = path) then 1 else 0)
    + targetsAll path (Children include).
Proof.
  destruct include as [p r fs cs]; simpl. f_equal.
  induction cs as [|ci cs IH]; simpl; [reflexivity | by rewrite IH].
Qed.

Lemma nodeCalls_node path p res :
  nodeCalls path [EvCreateProjectNode p res] = if decide (p = path) then 1 else 0.
Proof.
  unfold nodeCalls; simpl. destruct (decide (p = path)).
  - by rewrite bool_decide_true.
  - by rewrite bool_decide_false.
Qed.

Lemma nodeCalls_edge path e res :
  nodeCalls path [EvCreateIncludeEdge e res] = 0.
Proof. reflexivity. Qed.

Lemma traverseChildren_nodeCalls_from W path cs :
  Forall (countsNodeCalls W path) cs ->
  forall c,
    let r := traverseChildren W cs c in
    nodeCalls path (trace (fst r)) <= nodeCalls path (trace c) + targetsAll path cs /\
    (snd r = None ->
     nodeCalls path (trace (fst r)) = nodeCalls path (trace c) + targetsAll path cs).
Proof.
  induction 1 as [|ci cs Hci _ IH]; intros c; simpl.
  { split; [lia | intros _; lia]. }
  destruct (Hci (Project ci) c) as [Hle Heq].
  destruct (traverseIncludes W (Project ci) ci c) as [c1 [err|]]; simpl in *.
  - split; [lia | discriminate].
  - specialize (Heq eq_refl). destruct (IH c1) as [Hle' Heq'].
    split; [lia|]. intros Hok. specialize (Heq' Hok). lia.
Qed.

Lemma traverseIncludes_nodeCalls W path include : countsNodeCalls W path include.
Proof.
  induction include as [p r fs cs IH] using RemoteInclude_tree_ind.
  intros parentName c. cbv zeta.
  rewrite traverseIncludes_eq, targets_eq.
  unfold storageCreateProjectNode, storageCreateIncludeEdge; simpl.
  assert (exists k, (if decide (p = path) then 1 else 0) = k /\
            forall res, nodeCalls path [EvCreateProjectNode p res] = k)
    as (k & -> & Hn) by (eexists; split; [reflexivity | apply nodeCalls_node]).
  (destruct (CreateProjectNode W _ _) as [e1|]; simpl;
     [rewrite nodeCalls_app, Hn; split; [lia | discriminate]|]);
    (destruct (CreateIncludeEdge W _ _) as [e2|]; simpl;
     [rewrite !nodeCalls_app, Hn, nodeCalls_edge;
      split; [lia | discriminate]|]);
    match goal with
    | |- context [traverseChildren W cs ?c0] =>
        destruct (traverseChildren_nodeCalls_from W path cs IH c0) as [Hle Heq];
        set (r3 := traverseChildren W cs c0) in *
    end;
    simpl in Hle, Heq; rewrite !nodeCalls_app, Hn, nodeCalls_edge in Hle, Heq;
    (split; [lia|]; intros Hok; specialize (Heq Hok); lia).
Qed.

(** X17: of two Process calls for the same path in a run, at most one does
    anything: either the first found its context done and left the crawler
    as it was, or the second is a no-op. *)
Lemma repeated_process_is_noop W ctx1 ctx2 p1 p2 ops c :
  gitlab.PathWithNamespace p2 = gitlab.PathWithNamespace p1 ->
  let c1 := fst (updateProjectInGraph W ctx1 p1 c) in
  let c2 := runOps W ops c1 in
  c1 = c \/ fst (updateProjectInGraph W ctx2 p2 c2) = c2.
Proof.
  intros Hsame c1 c2. destruct (ctx1 (trace c)) as [e|] eqn:Hctx.
  - left. subst c1. unfold updateProjectInGraph. by rewrite Hctx.
  - right. rewrite visited_process_is_noop_aux; [reflexivity|].
    rewrite Hsame. eapply grows_visited; [apply runOps_grows|].
    by apply process_marks_visited.
Qed.

(** C2, as the code has it: a path that is in the Visited Set stays in it
    through every later Process and Persist operation; every later Process
    call for it is a no-op (no node creation and no descriptor fetch are
    attempted, the crawler is returned as it was); a later Persist call does
    not consult the Visited Set: it attempts [CreateProjectNode] for the
    path once per node of the include tree that targets it when it returns
    nil, and never more than that. *)
Theorem visited_guard W ops ctx project c :
  gitlab.PathWithNamespace project ∈ projectSet c ->
  let path := gitlab.PathWithNamespace project in
  let c' := runOps W ops c in
  path ∈ projectSet c' /\
  updateProjectInGraph W ctx project c' = (c', ctxResult ctx (trace c')) /\
  (forall parentName include,
     let r := traverseIncludes W parentName include c' in
     nodeCalls path (trace (fst r))
       <= nodeCalls path (trace c') + targets path include /\
     (snd r = None ->
      nodeCalls path (trace (fst r))
      = nodeCalls path (trace c') + targets path include)).
Proof.
  intros Hin path c'.
  assert (path ∈ projectSet c') as Hin'
    by (eapply grows_visited; [apply runOps_grows | exact Hin]).
  split; [exact Hin'|]. split; [by apply visited_process_is_noop_aux|].
  intros parentName include. apply traverseIncludes_nodeCalls.
Qed.

Lemma visited_guard_witness :
  let c := fst (traverseIncludes (okWorld []) "team/lib" (leaf "team/app")
                  (New cfg0)) in
  let c' := runOps (okWorld []) [OpPersist "team/lib" (leaf "team/app")] c in
  "team/app" ∈ projectSet c /\
  updateProjectInGraph (okWorld []) liveCtx teamApp c' = (c', None) /\
  nodeCalls "team/app"
    (trace (fst (traverseIncludes (okWorld []) "team/lib" (leaf "team/app") c')))
  = nodeCalls "team/app" (trace c') + 1.
Proof.
  cbv zeta.
  assert ("team/app" ∈ projectSet
            (fst (traverseIncludes (okWorld []) "team/lib" (leaf "team/app")
                    (New cfg0)))) as Hin by decide_by_computation.
  split; [exact Hin|].
  pose proof (visited_guard (okWorld []) [OpPersist "team/lib" (leaf "team/app")]
                liveCtx teamApp _ Hin) as (_ & Hnoop & Hpersist).
  split; [exact Hnoop|].
  exact (proj2 (Hpersist "team/lib" (leaf "team/app")) eq_refl).
Defined.

(** C2, as stated, fails: team/shared-ci is in the Visited Set after it was
    persisted once; a single later Persist operation, of an include tree
    that targets it twice, calls [CreateProjectNode] for it twice; two later
    Persist operations each call it again; and in a whole crawl of one
    project whose descriptor includes team/shared-ci three times,
    [CreateProjectNode] is called three times for it. *)
Lemma visited_node_created_again_counterexample :
  let W := okWorld [leaf "team/shared-ci"; leaf "team/shared-ci";
                    leaf "team/shared-ci"] in
  let c1 := fst (traverseIncludes W "team/app" (leaf "team/shared-ci") (New cfg0)) in
  let c2 := runOps W [OpPersist "team/lib" sharedTwice] c1 in
  let c3 := runOps W [OpPersist "team/app" (leaf "team/shared-ci");
                      OpPersist "team/app" (leaf "team/shared-ci")] c1 in
  "team/shared-ci" ∈ projectSet c1 /\
  nodeCalls "team/shared-ci" (trace c2)
  = nodeCalls "team/shared-ci" (trace c1) + 2 /\
  nodeCalls "team/shared-ci" (trace c3)
  = nodeCalls "team/shared-ci" (trace c1) + 2 /\
  nodeCalls "team/shared-ci"
    (trace (fst (Crawl W liveCtx [teamApp] None (New cfg0)))) = 3.
Proof.
  cbv zeta. split; [decide_by_computation|]. repeat split; reflexivity.
Qed.

(** ** The Include Resolver *)

Lemma height_eq include : height include = S (heightAll (Children include)).
Proof. by destruct include. Qed.

Lemma heightAll_app cs1 cs2 :
  heightAll (cs1 ++ cs2) = Nat.max (heightAll cs1) (heightAll cs2).
Proof.
  induction cs1 as [|ci cs1 IH]; simpl; [reflexivity|]. rewrite IH. lia.
Qed.

Lemma bounded_refl k s : bounded k s ([], s).
Proof. split; [simpl; lia|]. split; [reflexivity | done]. Qed.

Lemma bounded_seq k s r1 r2 :
  bounded k s r1 -> bounded k (snd r1) r2 ->
  bounded k s (fst r1 ++ fst r2, snd r2).
Proof.
  intros (Hh1 & Hp1 & Hd1) (Hh2 & Hp2 & Hd2). split; [|split]; simpl.
  - rewrite heightAll_app. lia.
  - etransitivity; eassumption.
  - auto.
Qed.

Lemma expandAll_bounded k expandOne :
  boundedOne k expandOne ->
  forall ds s, bounded k s (Resolver.expandAll expandOne ds s).
Proof.
  intros Hone. induction ds as [|d rest IH]; intros s; simpl.
  { apply bounded_refl. }
  specialize (Hone d s).
  destruct (expandOne d s) as [i s1]; simpl in Hone.
  specialize (IH s1).
  destruct (Resolver.expandAll expandOne rest s1) as [more s2].
  exact (bounded_seq k s ([i], s1) (more, s2) Hone IH).
Qed.

Lemma expandFiles_bounded R k expandOne project ref :
  boundedOne k expandOne ->
  forall files s,
    bounded k s (Resolver.expandFiles R expandOne project ref files s).
Proof.
  intros Hone. induction files as [|f rest IH]; intros s; simpl.
  { apply bounded_refl. }
  destruct (decide _) as [Hseen|Hnew]; [apply IH|].
  set (t := (project, ref, f)) in *.
  assert (bounded k s ([], Resolver.noteExpanded t s)) as Hnote.
  { split; [simpl; lia|]. split; simpl.
    - by apply prefix_app_r.
    - intros Hnd. apply NoDup_app. split; [exact Hnd|].
      split; [|apply NoDup_singleton].
      intros x Hx Hx'. apply list_elem_of_singleton in Hx'. by subst x. }
  assert (forall r, bounded k (Resolver.noteFailed t (Resolver.noteExpanded t s)) r ->
                    bounded k s r) as Hskip.
  { intros r Hr. exact (bounded_seq k s _ r Hnote Hr). }
  destruct (Resolver.fetch R t) as [raw|]; [|apply Hskip, IH].
  destruct (Resolver.parse R raw) as [ds|]; [|apply Hskip, IH].
  pose proof (expandAll_bounded k expandOne Hone ds (Resolver.noteExpanded t s))
    as Hall.
  destruct (Resolver.expandAll expandOne ds _) as [children s1].
  specialize (IH s1).
  destruct (Resolver.expandFiles R expandOne project ref rest s1) as [more s2].
  pose proof (bounded_seq k _ (children, s1) (more, s2) Hall IH) as Hseq.
  exact (bounded_seq k s _ _ Hnote Hseq).
Qed.

Lemma expand_bounded R depth : boundedOne (S depth) (Resolver.expand R depth).
Proof.
  induction depth as [|depth IH]; intros d s; simpl.
  { split; [simpl; lia|]. split; [reflexivity | done]. }
  pose proof (expandFiles_bounded R (S depth) (Resolver.expand R depth)
                (Resolver.dProject d) (Resolver.dRef d) IH
                (Resolver.dFiles d) s) as (Hh & Hp & Hd).
  destruct (Resolver.expandFiles R _ _ _ _ s) as [children s']; simpl in *.
  split; [|split]; simpl; [|exact Hp | exact Hd].
  pose proof (height_eq (mkRemoteInclude (Resolver.dProject d) (Resolver.dRef d)
                           (Resolver.dFiles d) children)) as Heq.
  simpl in Heq. rewrite Heq. lia.
Qed.

(** On a finite include graph the depth bound is not what ends the
    recursion: the refusal to expand a reference twice does. *)
Lemma pending_prefix U s s' :
  Resolver.expanded s `prefix_of` Resolver.expanded s' ->
  pending U s' <= pending U s.
Proof.
  intros [k Hk]. unfold pending. apply subseteq_size. rewrite Hk.
  rewrite list_to_set_app_L. set_solver.
Qed.

Lemma pending_noteExpanded U t s :
  t ∈ U -> t ∉ Resolver.expanded s ->
  pending U (Resolver.noteExpanded t s) < pending U s.
Proof.
  intros HU Hnew. unfold pending; simpl. apply subset_size.
  rewrite list_to_set_app_L. split; [set_solver|].
  intros Hsub. assert (t ∈ U ∖ list_to_set (Resolver.expanded s)) as Ht.
  { apply elem_of_difference. split; [exact HU|]. by rewrite elem_of_list_to_set. }
  apply Hsub in Ht. set_solver.
Qed.

Lemma pending_zero U t s :
  pending U s = 0 -> t ∈ U -> t ∈ Resolver.expanded s.
Proof.
  unfold pending. intros Hz HU. apply size_empty_iff in Hz.
  destruct (decide (t ∈ Resolver.expanded s)) as [|Hnew]; [done|].
  exfalso. assert (t ∈ U ∖ list_to_set (Resolver.expanded s)) as Ht.
  { apply elem_of_difference. split; [exact HU|]. by rewrite elem_of_list_to_set. }
  set_solver.
Qed.

Lemma expandFiles_all_expanded R expandOne U project ref files s :
  pending U s = 0 ->
  (forall f, f ∈ files -> (project, ref, f) ∈ U) ->
  Resolver.expandFiles R expandOne project ref files s = ([], s).
Proof.
  intros Hz. induction files as [|f rest IH]; intros HU; simpl; [reflexivity|].
  rewrite decide_True.
  - apply IH. intros g Hg. apply HU. by right.
  - eapply pending_zero; [exact Hz|]. apply HU. by left.
Qed.

Lemma expandAll_agree U n k f g :
  agreeBelow U n f g -> boundedOne k f ->
  forall ds s, inScope U ds -> pending U s <= n ->
    Resolver.expandAll f ds s = Resolver.expandAll g ds s.
Proof.
  intros Hagree Hf. induction ds as [|d rest IH]; intros s Hds Hs; simpl;
    [reflexivity|].
  rewrite <- (Hagree d s); [| | exact Hs].
  2: { intros d' ->%list_elem_of_singleton x Hx. apply (Hds d); [by left | exact Hx]. }
  destruct (Hf d s) as (_ & Hp & _).
  destruct (f d s) as [i s1]; simpl in Hp.
  rewrite IH; [reflexivity | |].
  - intros d' Hd'. apply Hds. by right.
  - pose proof (pending_prefix U s s1 Hp). lia.
Qed.

Lemma expandFiles_agree R U n k f g project ref :
  closedUnder R U -> agreeBelow U n f g -> boundedOne k f ->
  forall files s,
    (forall x, x ∈ files -> (project, ref, x) ∈ U) ->
    pending U s <= S n ->
    Resolver.expandFiles R f project ref files s
    = Resolver.expandFiles R g project ref files s.
Proof.
  intros Hclosed Hagree Hf. induction files as [|x rest IH]; intros s HU Hs;
    simpl; [reflexivity|].
  assert (forall y, y ∈ rest -> (project, ref, y) ∈ U) as HU'
    by (intros y Hy; apply HU; by right).
  destruct (decide _) as [Hseen|Hnew]; [by apply IH|].
  set (t := (project, ref, x)) in *.
  assert (pending U (Resolver.noteExpanded t s) <= n) as Hs1.
  { assert (t ∈ U) as Ht by (apply HU; by left).
    pose proof (pending_noteExpanded U t s Ht Hnew). lia. }
  destruct (Resolver.fetch R t) as [raw|] eqn:Hfetch.
  2: { apply IH; [exact HU'|]. unfold pending in *; simpl in *. lia. }
  destruct (Resolver.parse R raw) as [ds|] eqn:Hparse.
  2: { apply IH; [exact HU'|]. unfold pending in *; simpl in *. lia. }
  rewrite <- (expandAll_agree U n k f g Hagree Hf ds _
                (Hclosed t raw ds Hfetch Hparse) Hs1).
  pose proof (expandAll_bounded k f Hf ds (Resolver.noteExpanded t s))
    as (_ & Hp & _).
  destruct (Resolver.expandAll f ds _) as [children s1]; simpl in Hp.
  rewrite IH; [reflexivity | exact HU' |].
  pose proof (pending_prefix U (Resolver.noteExpanded t s) s1 Hp). lia.
Qed.

Lemma expand_stable R U :
  closedUnder R U ->
  forall k1 k2 d s,
    inScope U [d] -> pending U s <= k1 -> pending U s <= k2 ->
    Resolver.expand R k1 d s = Resolver.expand R k2 d s.
Proof.
  intros Hclosed.
  assert (forall k d s, inScope U [d] -> pending U s = 0 ->
            Resolver.expand R k d s
            = (mkRemoteInclude (Resolver.dProject d) (Resolver.dRef d)
                 (Resolver.dFiles d) [], s)) as Hdone.
  { intros [|k] d s Hd Hz; simpl; [reflexivity|].
    rewrite (expandFiles_all_expanded R _ U); [reflexivity | exact Hz |].
    intros f Hf. apply (Hd d); [by left | exact Hf]. }
  induction k1 as [|a IH]; intros k2 d s Hd H1 H2.
  { rewrite !Hdone; [reflexivity | exact Hd | lia | exact Hd | lia]. }
  destruct k2 as [|b].
  { rewrite !Hdone; [reflexivity | exact Hd | lia | exact Hd | lia]. }
  simpl.
  rewrite (expandFiles_agree R U (Nat.min a b) (S a) (Resolver.expand R a)
             (Resolver.expand R b)); [reflexivity | exact Hclosed | | | |].
  - intros d' s' Hd' Hs'. apply IH; [exact Hd' | lia | lia].
  - apply expand_bounded.
  - intros x Hx. apply (Hd d); [by left | exact Hx].
  - lia.
Qed.

Lemma newEvents_trans P Q c c1 c2 :
  grows P c c1 -> grows Q c1 c2 ->
  newEvents c c2 = newEvents c c1 ++ newEvents c1 c2.
Proof.
  intros H1%grows_trace H2%grows_trace. apply newEvents_app.
  rewrite H2 at 1. rewrite H1 at 1. by rewrite <- app_assoc.
Qed.

(** Persisting a resolved tree makes at most two storage calls per node. *)
Lemma traverseChildren_calls_from W cs :
  Forall (fun i => forall parentName c,
            length (newEvents c (fst (traverseIncludes W parentName i c)))
            <= 2 * treeSize i) cs ->
  forall c, length (newEvents c (fst (traverseChildren W cs c)))
            <= 2 * treeSizeAll cs.
Proof.
  induction 1 as [|ci cs Hci _ IH]; intros c; simpl.
  { rewrite newEvents_same. simpl. lia. }
  specialize (Hci (Project ci) c).
  pose proof (traverseIncludes_grows W ci (Project ci) c) as Hg1.
  destruct (traverseIncludes W (Project ci) ci c) as [c1 [err|]]; simpl in *;
    [lia|].
  rewrite (newEvents_trans _ _ c c1 _ Hg1 (traverseChildren_grows W cs c1)).
  rewrite length_app. specialize (IH c1). lia.
Qed.

Lemma traverseIncludes_calls W include :
  forall parentName c,
    length (newEvents c (fst (traverseIncludes W parentName include c)))
    <= 2 * treeSize include.
Proof.
  induction include as [p r fs cs IH] using RemoteInclude_tree_ind.
  intros parentName c.
  change (treeSize (mkRemoteInclude p r fs cs)) with (S (treeSizeAll cs)).
  rewrite traverseIncludes_eq.
  unfold storageCreateProjectNode, storageCreateIncludeEdge; simpl.
  destruct (CreateProjectNode W _ _) as [e1|]; simpl.
  { new_events. simpl. lia. }
  destruct (CreateIncludeEdge W _ _) as [e2|]; simpl.
  { new_events. simpl. lia. }
  match goal with
  | |- context [traverseChildren W cs ?c0] =>
      pose proof (traverseChildren_calls_from W cs IH c0) as Hle;
      pose proof (traverseChildren_grows W cs c0) as Hg;
      set (c3 := fst (traverseChildren W cs c0)) in *;
      rewrite (newEvents_trans persistEvent persistEvent c c0 c3);
        [|grows_peel | exact Hg]
  end.
  rewrite length_app. new_events. simpl. lia.
Qed.

(** C5, on the resolver as the spec describes it: for every descriptor
    graph, cyclic or not, and every depth bound, [Resolve] returns: an error
    exactly when the root descriptor is malformed, and otherwise include
    trees that are at most [maxDepth + 1] high, having expanded no
    (project, ref, file) reference twice; each returned tree is persisted
    with at most two storage calls per node; and on a finite graph, whose
    references all lie in [U], every depth bound of at least the size of
    [U] gives the same result, so that it is the refusal to expand a
    reference again, not the depth bound, that ends the recursion there. *)
Theorem resolution_terminates R maxDepth descriptor :
  match Resolver.Resolve R maxDepth descriptor with
  | None => Resolver.parse R descriptor = None
  | Some (includes, s) =>
      (exists ds, Resolver.parse R descriptor = Some ds) /\
      heightAll includes <= S maxDepth /\
      NoDup (Resolver.expanded s) /\
      (forall W parentName c i, i ∈ includes ->
         length (newEvents c (fst (traverseIncludes W parentName i c)))
         <= 2 * treeSize i) /\
      (forall U ds k,
         Resolver.parse R descriptor = Some ds ->
         closedUnder R U -> inScope U ds ->
         size U <= maxDepth -> size U <= k ->
         Resolver.Resolve R k descriptor = Some (includes, s))
  end.
Proof.
  unfold Resolver.Resolve.
  destruct (Resolver.parse R descriptor) as [ds|] eqn:Hparse; [|reflexivity].
  pose proof (expandAll_bounded (S maxDepth) _ (expand_bounded R maxDepth) ds
                Resolver.start) as (Hh & _ & Hnd).
  destruct (Resolver.expandAll _ ds Resolver.start) as [includes s] eqn:Hres.
  simpl in Hh, Hnd.
  split; [by exists ds|]. split; [exact Hh|].
  split; [apply Hnd; constructor|].
  split; [intros W parentName c i _; apply traverseIncludes_calls|].
  intros U ds' k [= <-] Hclosed Hscope Hmax Hk.
  rewrite <- Hres. f_equal. symmetry.
  apply (expandAll_agree U (size U) (S maxDepth)).
  - intros d s' Hd Hs'. apply (expand_stable R U Hclosed); [exact Hd | lia | lia].
  - apply expand_bounded.
  - exact Hscope.
  - unfold pending. apply subseteq_size. set_solver.
Qed.

Lemma cyclicRemote_closed : closedUnder cyclicRemote cyclicRefs.
Proof.
  intros t raw ds Hfetch Hparse d Hd f Hf. simpl in Hparse.
  unfold cyclicRefs.
  destruct (decide (raw = descriptorA)).
  { injection Hparse as <-. apply list_elem_of_singleton in Hd as ->.
    apply list_elem_of_singleton in Hf as ->. set_solver. }
  destruct (decide (raw = descriptorB)); [|discriminate].
  injection Hparse as <-. apply list_elem_of_singleton in Hd as ->.
  apply list_elem_of_singleton in Hf as ->. set_solver.
Qed.

Lemma resolution_terminates_witness :
  Resolver.Resolve cyclicRemote 7 descriptorA
  = Some ([mkRemoteInclude "B" "main" ["ci.yml"]
             [mkRemoteInclude "A" "main" [".gitlab-ci.yml"]
                [mkRemoteInclude "B" "main" ["ci.yml"] []]]],
          {| Resolver.expanded :=
               [("B", "main", "ci.yml"); ("A", "main", ".gitlab-ci.yml")];
             Resolver.failed := [] |}).
Proof.
  pose proof (resolution_terminates cyclicRemote 2 descriptorA) as H.
  change (Resolver.Resolve cyclicRemote 2 descriptorA)
    with (Some ([mkRemoteInclude "B" "main" ["ci.yml"]
                   [mkRemoteInclude "A" "main" [".gitlab-ci.yml"]
                      [mkRemoteInclude "B" "main" ["ci.yml"] []]]],
                {| Resolver.expanded :=
                     [("B", "main", "ci.yml"); ("A", "main", ".gitlab-ci.yml")];
                   Resolver.failed := [] |})) in H.
  destruct H as (_ & _ & _ & _ & Hstable).
  apply (Hstable cyclicRefs [includeOfB] 7).
  - reflexivity.
  - exact cyclicRemote_closed.
  - intros d Hd f Hf. apply list_elem_of_singleton in Hd as ->.
    apply list_elem_of_singleton in Hf as ->. unfold cyclicRefs. set_solver.
  - vm_compute. lia.
  - vm_compute. lia.
Defined.

(** ** Cancellation *)

(** C6, as stated, fails: the context is cancelled right after the
    descriptor fetch of team/app has returned; the four writes that persist
    its include tree are made all the same, after the cancellation, and
    each returns nil. *)
Lemma writes_after_cancellation_counterexample :
  let r := updateProjectInGraph (okWorld [sharedCI]) (cancelAfter 2) teamApp
             (New cfg0) in
  let before := [EvCreateProjectNode "team/app" None;
                 EvGetRawFileFromProject 1 ".gitlab-ci.yml" "main" (inl [])] in
  let after := [EvParseIncludes [] (inl [sharedCI]);
                EvCreateProjectNode "team/shared-ci" None;
                EvCreateIncludeEdge (includeEdge "team/app" sharedCI) None;
                EvCreateProjectNode "team/base-ci" None;
                EvCreateIncludeEdge
                  (includeEdge "team/base-ci" (leaf "team/base-ci")) None] in
  snd r = None /\
  trace (fst r) = before ++ after /\
  cancelAfter 2 before = Some Canceled /\
  (forall tr, cancelAfter 2 (before ++ tr) = Some Canceled).
Proof.
  cbv zeta. split; [reflexivity|]. split; [reflexivity|].
  split; [reflexivity|].
  intros tr. unfold cancelAfter. rewrite decide_True; [reflexivity|].
  rewrite length_app. simpl. lia.
Qed.

(** * Further properties of the crawl engine *)

(** ** An induction principle that follows [traverseIncludes] *)

Lemma traverseIncludes_node_fails W parentName include c e :
  CreateProjectNode W (trace c) (Project include) = Some e ->
  traverseIncludes W parentName include c
  = (emit (EvCreateProjectNode (Project include) (Some e))
       (markVisited (Project include) c),
     Some (Errorf "failed to write project to neo4j: %w" [] e)).
Proof.
  intros Hnode. rewrite traverseIncludes_eq.
  unfold storageCreateProjectNode; simpl. by rewrite Hnode.
Qed.

Lemma traverseIncludes_edge_fails W parentName include c e :
  CreateProjectNode W (trace c) (Project include) = None ->
  CreateIncludeEdge W (trace c ++ [EvCreateProjectNode (Project include) None])
    (includeEdge parentName include) = Some e ->
  traverseIncludes W parentName include c
  = (emit (EvCreateIncludeEdge (includeEdge parentName include) (Some e))
       (emit (EvCreateProjectNode (Project include) None)
          (markVisited (Project include) c)),
     Some (Errorf "failed to write neo4j transaction: %w" [] e)).
Proof.
  intros Hnode Hedge. rewrite traverseIncludes_eq.
  unfold storageCreateProjectNode, storageCreateIncludeEdge; simpl.
  rewrite Hnode. simpl. fold (includeEdge parentName include).
  by rewrite Hedge.
Qed.


Section TraverseInduction.
Variable W : World.
Variable P : string -> RemoteInclude -> Crawler -> Crawler * option error -> Prop.
Variable Q : list RemoteInclude -> Crawler -> Crawler * option error -> Prop.

Hypothesis node_fails : forall parentName i c e,
  CreateProjectNode W (trace c) (Project i) = Some e ->
  P parentName i c
    (emit (EvCreateProjectNode (Project i) (Some e)) (markVisited (Project i) c),
     Some (Errorf "failed to write project to neo4j: %w" [] e)).

Hypothesis edge_fails : forall parentName i c e,
  CreateProjectNode W (trace c) (Project i) = None ->
  CreateIncludeEdge W (trace c ++ [EvCreateProjectNode (Project i) None])
    (includeEdge parentName i) = Some e ->
  P parentName i c
    (emit (EvCreateIncludeEdge (includeEdge parentName i) (Some e))
       (emit (EvCreateProjectNode (Project i) None) (markVisited (Project i) c)),
     Some (Errorf "failed to write neo4j transaction: %w" [] e)).

Hypothesis children_run : forall parentName i c r,
  CreateProjectNode W (trace c) (Project i) = None ->
  CreateIncludeEdge W (trace c ++ [EvCreateProjectNode (Project i) None])
    (includeEdge parentName i) = None ->
  Q (Children i) (afterOwnWrites parentName i c) r ->
  P parentName i c r.

Hypothesis no_child : forall c, Q [] c (c, None).

Hypothesis child_fails : forall ci rest c c1 err,
  P (Project ci) ci c (c1, Some err) ->
  Q (ci :: rest) c
    (c1, Some (Errorf "failed to write child includes for %s: %w"
                 [ArgStr (Project ci)] err)).

Hypothesis child_done : forall ci rest c c1 r,
  P (Project ci) ci c (c1, None) -> Q rest c1 r -> Q (ci :: rest) c r.

Lemma traverseChildren_rect_from cs :
  Forall (fun i => forall parentName c,
            P parentName i c (traverseIncludes W parentName i c)) cs ->
  forall c, Q cs c (traverseChildren W cs c).
Proof.
  induction 1 as [|ci cs Hci _ IH]; intros c; simpl; [apply no_child|].
  specialize (Hci (Project ci) c).
  destruct (traverseIncludes W (Project ci) ci c) as [c1 [err|]].
  - by apply child_fails.
  - eapply child_done; [exact Hci | apply IH].
Qed.

Lemma traverseIncludes_rect include :
  forall parentName c,
    P parentName include c (traverseIncludes W parentName include c).
Proof.
  induction include as [p r fs cs IH] using RemoteInclude_tree_ind.
  intros parentName c. set (i := mkRemoteInclude p r fs cs).
  destruct (CreateProjectNode W (trace c) (Project i)) as [e|] eqn:Hnode.
  { rewrite (traverseIncludes_node_fails W parentName i c e Hnode).
    by apply node_fails. }
  destruct (CreateIncludeEdge W
              (trace c ++ [EvCreateProjectNode (Project i) None])
              (includeEdge parentName i)) as [e|] eqn:Hedge.
  { rewrite (traverseIncludes_edge_fails W parentName i c e Hnode Hedge).
    by apply edge_fails. }
  rewrite (traverseIncludes_own_writes W parentName i c Hnode Hedge).
  apply children_run; [exact Hnode | exact Hedge|].
  by apply traverseChildren_rect_from.
Qed.

Lemma traverseChildren_rect cs c : Q cs c (traverseChildren W cs c).
Proof.
  apply traverseChildren_rect_from, Forall_forall.
  intros i _. apply traverseIncludes_rect.
Qed.

End TraverseInduction.

(** ** A traversal follows its plan *)

Lemma errorsIs_refl err : errorsIs err err = true.
Proof. destruct err; cbn [errorsIs]; by rewrite decide_True. Qed.

Lemma errorsIs_wrap format args err target :
  errorsIs err target = true -> errorsIs (Errorf format args err) target = true.
Proof. intros H. cbn [errorsIs]. by destruct (decide _). Qed.

Lemma planOf_eq parentName include :
  planOf parentName include
  = EvCreateProjectNode (Project include) None
    :: EvCreateIncludeEdge (includeEdge parentName include) None
    :: planAll (Children include).
Proof. by destruct include. Qed.

Lemma projectsOf_eq include :
  projectsOf include = Project include :: projectsAll (Children include).
Proof. by destruct include. Qed.

Lemma nodePaths_app tr1 tr2 :
  nodePaths (tr1 ++ tr2) = nodePaths tr1 ++ nodePaths tr2.
Proof.
  induction tr1 as [|ev tr1 IH]; [reflexivity|].
  destruct ev; simpl; by rewrite IH.
Qed.

Lemma traverseIncludes_followsPlan W include parentName c :
  followsPlan (planOf parentName include) c
    (traverseIncludes W parentName include c).
Proof.
  apply (traverseIncludes_rect W
           (fun parentName i c r => followsPlan (planOf parentName i) c r)
           (fun cs c r => followsPlan (planAll cs) c r)).
  - (* the node write fails *)
    intros pn i c0 e _. exists [EvCreateProjectNode (Project i) (Some e)].
    split; [reflexivity|]. split; [reflexivity|]. split; [simpl; set_solver|].
    simpl. exists [], (EvCreateProjectNode (Project i) (Some e)), e.
    split; [reflexivity|]. split; [reflexivity|].
    split; [|apply errorsIs_wrap, errorsIs_refl].
    rewrite planOf_eq. simpl. by apply prefix_cons, prefix_nil.
  - (* the edge write fails *)
    intros pn i c0 e _ _.
    exists [EvCreateProjectNode (Project i) None;
            EvCreateIncludeEdge (includeEdge pn i) (Some e)].
    split; [simpl; by rewrite <- app_assoc|]. split; [reflexivity|].
    split; [simpl; set_solver|].
    simpl. exists [EvCreateProjectNode (Project i) None],
             (EvCreateIncludeEdge (includeEdge pn i) (Some e)), e.
    split; [reflexivity|]. split; [reflexivity|].
    split; [|apply errorsIs_wrap, errorsIs_refl].
    rewrite planOf_eq. simpl. by do 2 apply prefix_cons; apply prefix_nil.
  - (* both succeed, and the children run *)
    intros pn i c0 r _ _ (d & Ht & Hc & Hv & Hres).
    exists (EvCreateProjectNode (Project i) None
            :: EvCreateIncludeEdge (includeEdge pn i) None :: d).
    split; [rewrite Ht; simpl; by rewrite <- !app_assoc|].
    split; [by rewrite Hc|].
    split; [rewrite Hv; simpl; set_solver|].
    rewrite planOf_eq. destruct (snd r) as [err|].
    + destruct Hres as (d0 & ev & e & -> & Hev & Hpre & Herr).
      exists (EvCreateProjectNode (Project i) None
              :: EvCreateIncludeEdge (includeEdge pn i) None :: d0), ev, e.
      split; [reflexivity|]. split; [exact Hev|]. split; [|exact Herr].
      simpl. by do 2 apply prefix_cons.
    + by rewrite Hres.
  - (* no child *)
    intros c0. exists []. split; [by rewrite app_nil_r|].
    split; [reflexivity|]. split; [simpl; set_solver | reflexivity].
  - (* a child fails *)
    intros ci rest c0 c1 err (d & Ht & Hc & Hv & d0 & ev & e & -> & Hev & Hpre & Herr).
    exists (d0 ++ [ev]). split; [exact Ht|]. split; [exact Hc|].
    split; [exact Hv|]. simpl. exists d0, ev, e.
    split; [reflexivity|]. split; [exact Hev|].
    split; [|by apply errorsIs_wrap].
    etransitivity; [exact Hpre | by apply prefix_app_r].
  - (* a child is done, the rest runs *)
    intros ci rest c0 c1 r (d1 & Ht1 & Hc1 & Hv1 & Hd1) (d2 & Ht2 & Hc2 & Hv2 & Hres).
    simpl in Ht1, Hc1, Hv1, Hd1. subst d1.
    exists (planOf (Project ci) ci ++ d2).
    split; [by rewrite Ht2, Ht1, app_assoc|].
    split; [congruence|].
    split; [rewrite Hv2, Hv1, nodePaths_app, list_to_set_app_L; set_solver|].
    destruct (snd r) as [err|]; simpl.
    + destruct Hres as (d0 & ev & e & -> & Hev & Hpre & Herr).
      exists (planOf (Project ci) ci ++ d0), ev, e.
      split; [by rewrite app_assoc|]. split; [exact Hev|]. split; [|exact Herr].
      rewrite <- app_assoc. by apply prefix_app.
    + by rewrite Hres.
Qed.

Lemma traverseIncludes_plan_done W parentName include c :
  snd (traverseIncludes W parentName include c) = None ->
  newEvents c (fst (traverseIncludes W parentName include c))
  = planOf parentName include.
Proof.
  intros Hok.
  destruct (traverseIncludes_followsPlan W include parentName c)
    as (d & Ht & _ & _ & Hres).
  rewrite Hok in Hres. by rewrite (newEvents_app _ _ _ Ht).
Qed.

Lemma planAll_results cs :
  Forall (fun i => forall parentName,
            Forall (fun ev => resultOf ev = None) (planOf parentName i)) cs ->
  Forall (fun ev => resultOf ev = None) (planAll cs).
Proof.
  induction 1 as [|ci cs Hci _ IH]; simpl; [constructor|].
  apply Forall_app. split; [apply Hci | exact IH].
Qed.

Lemma planOf_results include :
  forall parentName, Forall (fun ev => resultOf ev = None) (planOf parentName include).
Proof.
  induction include as [p r fs cs IH] using RemoteInclude_tree_ind.
  intros parentName. rewrite planOf_eq.
  do 2 (constructor; [reflexivity|]). by apply planAll_results.
Qed.

Lemma planAll_nodePaths cs :
  Forall (fun i => forall parentName,
            nodePaths (planOf parentName i) = projectsOf i) cs ->
  nodePaths (planAll cs) = projectsAll cs.
Proof.
  induction 1 as [|ci cs Hci _ IH]; simpl; [reflexivity|].
  by rewrite nodePaths_app, Hci, IH.
Qed.

Lemma planOf_nodePaths include :
  forall parentName, nodePaths (planOf parentName include) = projectsOf include.
Proof.
  induction include as [p r fs cs IH] using RemoteInclude_tree_ind.
  intros parentName. rewrite planOf_eq, projectsOf_eq. simpl.
  f_equal. by apply planAll_nodePaths.
Qed.

(** X1: [traverseIncludes] returns nil exactly when the storage calls it
    made are its plan: node and edge of the include, then node and edge of
    every descendant, depth first, parent before children and siblings in
    order, each answered with nil. *)
Theorem traversal_succeeds_iff_plan_done W parentName include c :
  snd (traverseIncludes W parentName include c) = None <->
  newEvents c (fst (traverseIncludes W parentName include c))
  = planOf parentName include.
Proof.
  destruct (traverseIncludes_followsPlan W include parentName c)
    as (d & Ht & _ & _ & Hres).
  rewrite (newEvents_app _ _ _ Ht). split.
  - intros Hok. by rewrite Hok in Hres.
  - intros Hd. destruct (snd _) as [err|]; [exfalso | reflexivity].
    destruct Hres as (d0 & ev & e & Hd0 & Hev & _).
    pose proof (planOf_results include parentName) as Hplan.
    rewrite <- Hd, Hd0 in Hplan. apply Forall_app in Hplan as [_ Hlast].
    apply Forall_cons in Hlast as [Hnil _]. congruence.
Qed.

(** X2: when [traverseIncludes] returns an error, the last call it made is
    a storage write that failed, every call before it was answered with
    nil, the calls follow the plan up to that point, and the error returned
    wraps the answer of the failed call ([errors.Is] finds it). *)
Theorem traversal_stops_at_first_failed_write W parentName include c err :
  snd (traverseIncludes W parentName include c) = Some err ->
  exists d0 ev e,
    newEvents c (fst (traverseIncludes W parentName include c)) = d0 ++ [ev] /\
    isWrite ev = true /\
    resultOf ev = Some e /\
    errorsIs err e = true /\
    Forall (fun ev0 => resultOf ev0 = None) d0 /\
    (d0 ++ [succeeded ev]) `prefix_of` planOf parentName include.
Proof.
  intros Hfail.
  destruct (traverseIncludes_followsPlan W include parentName c)
    as (d & Ht & _ & _ & Hres).
  rewrite Hfail in Hres. destruct Hres as (d0 & ev & e & -> & Hev & Hpre & Herr).
  pose proof (grows_newEvents _ _ _ (traverseIncludes_grows W include parentName c))
    as Hwrites.
  rewrite (newEvents_app _ _ _ Ht) in *.
  exists d0, ev, e. split; [reflexivity|].
  apply Forall_app in Hwrites as [_ Hlast].
  apply Forall_cons in Hlast as [Hw _].
  split; [exact Hw|]. split; [exact Hev|]. split; [exact Herr|].
  split; [|exact Hpre].
  destruct Hpre as [k Hk].
  pose proof (planOf_results include parentName) as Hplan.
  rewrite Hk, <- app_assoc in Hplan. by apply Forall_app in Hplan as [? _].
Qed.

Lemma traversal_stops_at_first_failed_write_witness :
  exists d0 ev e,
    newEvents (New cfg0)
      (fst (traverseIncludes (flakyWorld "team/two" []) "team/app" threeChildren
              (New cfg0))) = d0 ++ [ev] /\
    isWrite ev = true /\
    resultOf ev = Some e /\
    errorsIs
      (Errorf "failed to write child includes for %s: %w" [ArgStr "team/two"]
         (Errorf "failed to write project to neo4j: %w" [] storageDown)) e
    = true /\
    Forall (fun ev0 => resultOf ev0 = None) d0 /\
    (d0 ++ [succeeded ev]) `prefix_of` planOf "team/app" threeChildren.
Proof.
  apply (traversal_stops_at_first_failed_write (flakyWorld "team/two" [])
           "team/app" threeChildren (New cfg0)).
  reflexivity.
Defined.

Lemma nodePaths_elem tr path :
  path ∈ nodePaths tr -> exists res, EvCreateProjectNode path res ∈ tr.
Proof.
  induction tr as [|ev tr IH]; simpl; [by intros ?%elem_of_nil|].
  assert (path ∈ nodePaths tr -> exists res, EvCreateProjectNode path res ∈ ev :: tr)
    as Hrest.
  { intros Hin. destruct (IH Hin) as (res & Hres). exists res. by right. }
  destruct ev; try exact Hrest.
  intros [->|Hin]%elem_of_cons; [|by apply Hrest].
  eexists. by left.
Qed.

(** X3: [traverseIncludes] adds to the Visited Set exactly the paths it
    called [CreateProjectNode] for; when it returns nil these are all the
    target projects of the include tree, so every include target is visited
    and has had its node written. *)
Theorem traversal_visits_what_it_creates W parentName include c :
  let r := traverseIncludes W parentName include c in
  projectSet (fst r)
  = projectSet c ∪ list_to_set (nodePaths (newEvents c (fst r))) /\
  (snd r = None ->
   projectSet (fst r) = projectSet c ∪ list_to_set (projectsOf include) /\
   forall path, path ∈ projectsOf include ->
     EvCreateProjectNode path None ∈ newEvents c (fst r)).
Proof.
  cbv zeta.
  destruct (traverseIncludes_followsPlan W include parentName c)
    as (d & Ht & _ & Hv & Hres).
  rewrite (newEvents_app _ _ _ Ht). split; [exact Hv|].
  intros Hok. rewrite Hok in Hres. subst d.
  rewrite Hv, planOf_nodePaths. split; [reflexivity|].
  intros path. rewrite <- (planOf_nodePaths include parentName).
  intros (res & Hin)%nodePaths_elem.
  pose proof (planOf_results include parentName) as Hnil.
  rewrite Forall_forall in Hnil. specialize (Hnil _ Hin). simpl in Hnil.
  by subst res.
Qed.

Lemma traversal_visits_what_it_creates_witness :
  projectSet (fst (traverseIncludes (okWorld []) "team/app" sharedCI (New cfg0)))
  = projectSet (New cfg0) ∪ list_to_set (projectsOf sharedCI).
Proof.
  apply (proj2 (traversal_visits_what_it_creates (okWorld []) "team/app"
                  sharedCI (New cfg0))).
  reflexivity.
Defined.

(** ** The Visited Set is the set of projects with a node call *)

Lemma accounted_refl c : accounted c c.
Proof.
  exists []. split; [by rewrite app_nil_r|]. split; [simpl; set_solver | constructor].
Qed.

Lemma accounted_trans c1 c2 c3 : accounted c1 c2 -> accounted c2 c3 -> accounted c1 c3.
Proof.
  intros (d1 & Ht1 & Hv1 & Hr1) (d2 & Ht2 & Hv2 & Hr2). exists (d1 ++ d2).
  split; [by rewrite Ht2, Ht1, app_assoc|].
  split; [rewrite Hv2, Hv1, nodePaths_app, list_to_set_app_L; set_solver|].
  by apply Forall_app.
Qed.

Lemma accounted_emit ev c :
  isRemoveAll ev = false -> nodePaths [ev] = [] -> accounted c (emit ev c).
Proof.
  intros Hr Hn. exists [ev]. split; [reflexivity|].
  split; [rewrite Hn; simpl; set_solver | by constructor].
Qed.

Lemma accounted_mark_node path res c :
  accounted c (emit (EvCreateProjectNode path res) (markVisited path c)).
Proof.
  exists [EvCreateProjectNode path res]. split; [reflexivity|].
  split; [simpl; set_solver | by constructor].
Qed.

Ltac accounted_peel :=
  repeat lazymatch goal with
    | |- accounted ?c ?c => apply accounted_refl
    | |- accounted _ (emit (EvCreateProjectNode ?p _) (markVisited ?p ?x)) =>
        apply (accounted_trans _ x); [| apply accounted_mark_node]
    | |- accounted _ (emit _ ?x) =>
        apply (accounted_trans _ x); [| apply accounted_emit; reflexivity]
    end.

Lemma traverseIncludes_accounted W parentName include c :
  accounted c (fst (traverseIncludes W parentName include c)).
Proof.
  destruct (traverseIncludes_followsPlan W include parentName c)
    as (d & Ht & _ & Hv & _).
  pose proof (grows_newEvents _ _ _ (traverseIncludes_grows W include parentName c))
    as Hwrites.
  rewrite (newEvents_app _ _ _ Ht) in Hwrites.
  exists d. split; [exact Ht|]. split; [exact Hv|].
  eapply Forall_impl; [exact Hwrites|]. intros ev Hev. by destruct ev.
Qed.

Lemma rangeIncludes_accounted W parentName includes :
  forall c, accounted c (rangeIncludes W parentName includes c).
Proof.
  induction includes as [|i rest IH]; intros c; simpl; [apply accounted_refl|].
  eapply accounted_trans; [|apply IH].
  set (c1 := if decide (Ref i = "") then _ else c).
  assert (accounted c c1) as H1.
  { subst c1. destruct (decide _); [|apply accounted_refl].
    unfold logger. accounted_peel. }
  eapply accounted_trans; [exact H1|].
  pose proof (traverseIncludes_accounted W parentName i c1) as H2.
  destruct (traverseIncludes W parentName i c1) as [c2 [err|]]; simpl in *;
    [|exact H2].
  eapply accounted_trans; [exact H2|]. unfold logger. accounted_peel.
Qed.

Lemma updateProjectInGraph_accounted W ctx project c :
  accounted c (fst (updateProjectInGraph W ctx project c)).
Proof.
  unfold updateProjectInGraph.
  destruct (ctx (trace c)); [apply accounted_refl|].
  destruct (decide _); [apply accounted_refl|].
  unfold storageCreateProjectNode, gitlabGetRawFileFromProject,
    callParseIncludes; simpl.
  destruct (CreateProjectNode W _ _) as [err|]; simpl; [accounted_peel|].
  destruct (GetRawFileFromProject W _ _ _ _ _) as [raw|err]; simpl.
  2: { destruct (errorsIs _ _); simpl; accounted_peel. }
  destruct (parseIncludes W _ _) as [includes|err]; simpl; [|accounted_peel].
  eapply accounted_trans; [|apply rangeIncludes_accounted]. accounted_peel.
Qed.

Lemma runOps_accounted W ops : forall c, accounted c (runOps W ops c).
Proof.
  induction ops as [|op ops IH]; intros c; simpl; [apply accounted_refl|].
  eapply accounted_trans; [|apply IH].
  destruct op; simpl;
    [apply updateProjectInGraph_accounted | apply traverseIncludes_accounted].
Qed.

Lemma rangeResultChan_accounted W ctx stream :
  forall c, accounted c (rangeResultChan W ctx stream c).
Proof.
  induction stream as [|p rest IH]; intros c; simpl; [apply accounted_refl|].
  destruct (decide _); [apply IH|].
  pose proof (updateProjectInGraph_accounted W ctx p c) as H.
  destruct (updateProjectInGraph W ctx p c) as [c1 [err|]]; simpl in *.
  - eapply accounted_trans; [exact H|].
    eapply accounted_trans; [|apply IH]. unfold logger. accounted_peel.
  - eapply accounted_trans; [exact H | apply IH].
Qed.

Lemma accounted_goProducer streamErr c : accounted c (goProducer streamErr c).
Proof.
  exists []. simpl. split; [by rewrite app_nil_r|].
  split; [set_solver | constructor].
Qed.

Lemma crawlProjects_accounted W ctx stream streamErr c :
  accounted c (fst (crawlProjects W ctx stream streamErr c)).
Proof.
  unfold crawlProjects. cbv zeta. cbn [fst]. unfold logger at 1.
  apply (accounted_trans _ (rangeResultChan W ctx stream
           (goProducer streamErr
              (logger InfoLevel None [] "Starting to crawl..." c))));
    [|apply accounted_emit; reflexivity].
  eapply accounted_trans; [|apply rangeResultChan_accounted].
  eapply accounted_trans; [|apply accounted_goProducer].
  unfold logger. accounted_peel.
Qed.

(** What [Crawl] adds to the trace: the cleanup, when it is configured, and
    then events that are accounted for. *)
Lemma Crawl_accounted W ctx stream streamErr c :
  exists c0,
    trace c0
    = trace c ++ (if StorageCleanup (config c)
                  then [EvLog InfoLevel None [] "Cleanup storage...";
                        EvRemoveAll
                          (RemoveAll W
                             (trace c ++ [EvLog InfoLevel None [] "Cleanup storage..."]))]
                  else []) /\
    projectSet c0 = projectSet c /\
    accounted c0 (fst (Crawl W ctx stream streamErr c)).
Proof.
  unfold Crawl, storageRemoveAll.
  destruct (StorageCleanup (config c)).
  - cbv zeta. destruct (RemoveAll W _) as [err|] eqn:Hwipe; cbv beta iota zeta.
    + eexists. split; [|split; [|apply accounted_refl]]; simpl.
      * by rewrite <- app_assoc.
      * reflexivity.
    + eexists. split; [|split; [|apply crawlProjects_accounted]]; simpl.
      * by rewrite <- app_assoc.
      * reflexivity.
  - exists c. split; [by rewrite app_nil_r|]. split; [reflexivity|].
    apply crawlProjects_accounted.
Qed.

(** X4: starting from [New], after any sequence of Process and Persist
    operations and after any crawl, the Visited Set is exactly the set of
    paths for which [CreateProjectNode] has been called: no project is
    marked without a node call for it, and none gets a node call without
    being marked. *)
Theorem visited_set_is_node_calls W cfg :
  (forall ops,
     projectSet (runOps W ops (New cfg))
     = list_to_set (nodePaths (trace (runOps W ops (New cfg))))) /\
  (forall ctx stream streamErr,
     projectSet (fst (Crawl W ctx stream streamErr (New cfg)))
     = list_to_set (nodePaths (trace (fst (Crawl W ctx stream streamErr (New cfg)))))).
Proof.
  split.
  - intros ops. destruct (runOps_accounted W ops (New cfg)) as (d & Ht & Hv & _).
    rewrite Hv, Ht. simpl. set_solver.
  - intros ctx stream streamErr.
    destruct (Crawl_accounted W ctx stream streamErr (New cfg)) as (c0 & Ht0 & Hv0 & d & Ht & Hv & _).
    rewrite Hv, Ht, Ht0, Hv0, nodePaths_app. simpl.
    destruct (StorageCleanup cfg); simpl; set_solver.
Qed.

(** X5: [RemoveAll] is called by nothing but the cleanup of [Crawl]: a
    crawl configured for cleanup logs its cleanup line, calls [RemoveAll]
    once, before every other collaborator call, and never again; a crawl
    not configured for it, and every Process and Persist operation, never
    call it. *)
Theorem removeAll_only_as_first_call W ctx stream streamErr c :
  (exists rest,
     newEvents c (fst (Crawl W ctx stream streamErr c))
     = (if StorageCleanup (config c)
        then [EvLog InfoLevel None [] "Cleanup storage...";
              EvRemoveAll
                (RemoveAll W
                   (trace c ++ [EvLog InfoLevel None [] "Cleanup storage..."]))]
        else []) ++ rest /\
     Forall (fun ev => isRemoveAll ev = false) rest) /\
  (forall ops,
     Forall (fun ev => isRemoveAll ev = false) (newEvents c (runOps W ops c))).
Proof.
  split.
  - destruct (Crawl_accounted W ctx stream streamErr c) as (c0 & Ht0 & _ & d & Ht & _ & Hd).
    exists d. split; [|exact Hd].
    apply newEvents_app. by rewrite Ht, Ht0, app_assoc.
  - intros ops. destruct (runOps_accounted W ops c) as (d & Ht & _ & Hd).
    by rewrite (newEvents_app _ _ _ Ht).
Qed.

(** ** What a Process call returns *)

(** X6: a Process call that returns an error has handed no edge to the
    storage layer.  The error is the context's, and then nothing at all was
    done; or the context was live, the path is now in the Visited Set, and
    the error wraps the error answered by the last collaborator call the
    Process call made, every earlier one having succeeded: failures of the
    include persistence never reach the result. *)
Theorem process_error_is_last_answer W ctx project c err :
  let r := updateProjectInGraph W ctx project c in
  snd r = Some err ->
  edgesOf (newEvents c (fst r)) = [] /\
  ((exists e, ctx (trace c) = Some e /\ err = ErrContext e /\ fst r = c) \/
   (ctx (trace c) = None /\
    gitlab.PathWithNamespace project ∈ projectSet (fst r) /\
    exists d0 ev e,
      newEvents c (fst r) = d0 ++ [ev] /\
      resultOf ev = Some e /\
      errorsIs err e = true /\
      Forall (fun ev0 => resultOf ev0 = None) d0)).
Proof.
  cbv zeta. unfold updateProjectInGraph.
  destruct (ctx (trace c)) as [e0|] eqn:Hctx; simpl.
  { intros [= <-]. rewrite newEvents_same. split; [reflexivity|].
    left. by exists e0. }
  destruct (decide _) as [|Hfresh]; [discriminate|].
  unfold storageCreateProjectNode, gitlabGetRawFileFromProject,
    callParseIncludes; simpl.
  set (path := gitlab.PathWithNamespace project).
  assert (path ∈ {[path]} ∪ projectSet c) as Hmark by set_solver.
  destruct (CreateProjectNode W _ _) as [e1|]; simpl.
  { intros [= <-]. new_events. split; [reflexivity|]. right.
    split; [reflexivity|]. split; [exact Hmark|].
    exists [], (EvCreateProjectNode path (Some e1)), e1.
    split; [reflexivity|]. split; [reflexivity|].
    split; [apply errorsIs_wrap, errorsIs_refl | constructor]. }
  destruct (GetRawFileFromProject W _ _ _ _ _) as [raw|e2]; simpl.
  - destruct (parseIncludes W _ _) as [includes|e3]; simpl; [discriminate|].
    intros [= <-]. new_events. split; [reflexivity|]. right.
    split; [reflexivity|]. split; [exact Hmark|].
    eexists [_; _], _, e3. split; [reflexivity|]. split; [reflexivity|].
    split; [apply errorsIs_wrap, errorsIs_refl | by repeat constructor].
  - destruct (errorsIs e2 ErrRawFileNotFound); simpl; [discriminate|].
    intros [= <-]. new_events. split; [reflexivity|]. right.
    split; [reflexivity|]. split; [exact Hmark|].
    eexists [_], _, e2. split; [reflexivity|]. split; [reflexivity|].
    split; [apply errorsIs_wrap, errorsIs_refl | by repeat constructor].
Qed.

Lemma process_error_is_last_answer_witness :
  edgesOf (newEvents (New cfg0)
             (fst (updateProjectInGraph downWorld liveCtx teamApp (New cfg0))))
  = [].
Proof.
  apply (proj1 (process_error_is_last_answer downWorld liveCtx teamApp (New cfg0)
                  (Errorf "failed to write project to neo4j: %w" [] storageDown)
                  eq_refl)).
Defined.

(** ** A storage layer that never fails *)

Lemma traverseIncludes_sound_storage W parentName include c :
  writesSucceed W -> snd (traverseIncludes W parentName include c) = None.
Proof.
  intros [Hnode Hedge].
  apply (traverseIncludes_rect W (fun _ _ _ r => snd r = None)
           (fun _ _ r => snd r = None)).
  - intros pn i c0 e He. by rewrite Hnode in He.
  - intros pn i c0 e _ He. by rewrite Hedge in He.
  - by intros.
  - by intros.
  - by intros ci rest c0 c1 err [=].
  - by intros.
Qed.

Lemma rangeIncludes_sound_storage W parentName includes :
  writesSucceed W ->
  forall c, trace (rangeIncludes W parentName includes c)
            = trace c ++ loopPlan parentName includes.
Proof.
  intros HW. induction includes as [|i rest IH]; intros c; simpl.
  { by rewrite app_nil_r. }
  rewrite IH.
  set (c1 := if decide (Ref i = "") then _ else c).
  assert (trace c1 = trace c ++ (if decide (Ref i = "")
                                 then [emptyRefWarning i] else [])) as H1.
  { subst c1. destruct (decide _); simpl; [reflexivity | by rewrite app_nil_r]. }
  pose proof (traverseIncludes_sound_storage W parentName i c1 HW) as Hok.
  pose proof (traverseIncludes_plan_done W parentName i c1 Hok) as Hplan.
  pose proof (grows_trace _ _ _ (traverseIncludes_grows W i parentName c1)) as Ht.
  destruct (traverseIncludes W parentName i c1) as [c2 [err|]]; simpl in *;
    [discriminate|].
  rewrite Ht, Hplan, H1. by rewrite <- !app_assoc.
Qed.

Lemma loopPlan_nodePaths parentName includes :
  nodePaths (loopPlan parentName includes) = projectsAll includes.
Proof.
  induction includes as [|i rest IH]; simpl; [reflexivity|].
  rewrite !nodePaths_app, planOf_nodePaths, IH.
  by destruct (decide _).
Qed.

(** X7: with a storage layer whose writes never fail, a Process call for an
    unvisited project whose descriptor is fetched and parsed returns nil
    and makes exactly these calls: the node of the project, the fetch, the
    parse, and then for each enriched include, in order, its empty-ref
    warning if it has no ref and its plan under the project's path; the
    Visited Set gains the project and every target of the include trees. *)
Theorem process_with_sound_storage W ctx project c raw includes :
  writesSucceed W ->
  ctx (trace c) = None ->
  gitlab.PathWithNamespace project ∉ projectSet c ->
  GetRawFileFromProject W ctx
    (trace c ++ [EvCreateProjectNode (gitlab.PathWithNamespace project) None])
    (gitlab.ID project) gitlabCIFileName (gitlab.DefaultBranch project)
  = inl raw ->
  parseIncludes W
    (trace c ++ [EvCreateProjectNode (gitlab.PathWithNamespace project) None;
                 EvGetRawFileFromProject (gitlab.ID project) gitlabCIFileName
                   (gitlab.DefaultBranch project) (inl raw)]) raw
  = inl includes ->
  let path := gitlab.PathWithNamespace project in
  let enriched := enrichIncludes W includes project (DefaultRefName (config c)) in
  let r := updateProjectInGraph W ctx project c in
  snd r = None /\
  newEvents c (fst r)
  = EvCreateProjectNode path None
    :: EvGetRawFileFromProject (gitlab.ID project) gitlabCIFileName
         (gitlab.DefaultBranch project) (inl raw)
    :: EvParseIncludes raw (inl includes)
    :: loopPlan path enriched /\
  projectSet (fst r)
  = projectSet c ∪ {[path]} ∪ list_to_set (projectsAll enriched).
Proof.
  intros HW Hctx Hfresh Hfetch Hparse path enriched r.
  assert (snd r = None /\
          newEvents c (fst r)
          = EvCreateProjectNode path None
            :: EvGetRawFileFromProject (gitlab.ID project) gitlabCIFileName
                 (gitlab.DefaultBranch project) (inl raw)
            :: EvParseIncludes raw (inl includes)
            :: loopPlan path enriched) as [Hres Hev].
  { subst r. unfold updateProjectInGraph. rewrite Hctx.
    rewrite decide_False by exact Hfresh.
    unfold storageCreateProjectNode, gitlabGetRawFileFromProject,
      callParseIncludes.
    cbv zeta. cbn [trace markVisited emit]. rewrite (proj1 HW).
    cbv beta iota zeta. cbn [trace markVisited emit]. rewrite Hfetch.
    cbv beta iota zeta. cbn [trace markVisited emit].
    rewrite <- !app_assoc. cbn [app]. rewrite Hparse.
    cbv beta iota zeta. cbn [fst snd].
    split; [reflexivity|]. apply newEvents_app.
    rewrite (rangeIncludes_sound_storage W _ _ HW). cbn [trace markVisited emit].
    by rewrite <- !app_assoc. }
  split; [exact Hres|]. split; [exact Hev|].
  destruct (updateProjectInGraph_accounted W ctx project c) as (d & Ht & Hv & _).
  fold r in Ht, Hv. rewrite (newEvents_app _ _ _ Ht) in Hev. subst d.
  rewrite Hv. simpl. rewrite loopPlan_nodePaths. set_solver.
Qed.

Lemma process_with_sound_storage_witness :
  newEvents (New cfg0)
    (fst (updateProjectInGraph (okWorld [sharedCI]) liveCtx teamApp (New cfg0)))
  = EvCreateProjectNode "team/app" None
    :: EvGetRawFileFromProject 1 ".gitlab-ci.yml" "main" (inl [])
    :: EvParseIncludes [] (inl [sharedCI])
    :: loopPlan "team/app" (defaultRefs [sharedCI] teamApp "main").
Proof.
  refine (proj1 (proj2 (process_with_sound_storage (okWorld [sharedCI]) liveCtx
                          teamApp (New cfg0) [] [sharedCI] _ _ _ _ _))).
  - split; reflexivity.
  - reflexivity.
  - simpl. apply not_elem_of_empty.
  - reflexivity.
  - reflexivity.
Defined.

(** ** The warning for an empty ref *)

Lemma emptyRefWarnings_app tr1 tr2 :
  emptyRefWarnings (tr1 ++ tr2) = emptyRefWarnings tr1 + emptyRefWarnings tr2.
Proof. unfold emptyRefWarnings. by rewrite List.filter_app, length_app. Qed.

Lemma emptyRefWarnings_writes d :
  Forall persistEvent d -> emptyRefWarnings d = 0.
Proof.
  induction 1 as [|ev d Hev _ IH]; [reflexivity|].
  change (ev :: d) with ([ev] ++ d). rewrite emptyRefWarnings_app, IH.
  by destruct ev.
Qed.

(** X8: whatever the collaborators answer, the include loop of the
    processor logs the empty-ref warning once for each include whose ref is
    empty, and for no other: the number of these warnings among its events
    is the number of includes without ref. *)
Theorem one_warning_per_empty_ref W parentName includes :
  forall c,
    emptyRefWarnings (newEvents c (rangeIncludes W parentName includes c))
    = length (filter (fun i => Ref i = "") includes).
Proof.
  induction includes as [|i rest IH]; intros c; simpl.
  { by rewrite newEvents_same. }
  set (c1 := if decide (Ref i = "") then _ else c).
  set (c2 := match traverseIncludes W parentName i c1 with
             | (c', Some err) => _
             | (c', None) => c'
             end).
  assert (trace c1 = trace c ++ (if decide (Ref i = "")
                                 then [emptyRefWarning i] else [])) as H1.
  { subst c1. destruct (decide _); simpl; [reflexivity | by rewrite app_nil_r]. }
  pose proof (grows_trace _ _ _ (traverseIncludes_grows W i parentName c1)) as Ht.
  pose proof (grows_newEvents _ _ _ (traverseIncludes_grows W i parentName c1))
    as Hwrites.
  assert (exists logs, trace c2 = trace (fst (traverseIncludes W parentName i c1))
                                  ++ logs /\ emptyRefWarnings logs = 0)
    as (logs & H2 & Hlogs).
  { subst c2. destruct (traverseIncludes W parentName i c1) as [c' [err|]]; simpl.
    - eexists [_]. split; reflexivity.
    - exists []. split; [by rewrite app_nil_r | reflexivity]. }
  pose proof (grows_trace _ _ _ (rangeIncludes_grows W parentName rest c2)) as H3.
  erewrite newEvents_app; last first.
  { rewrite H3, H2, Ht, H1. rewrite <- !app_assoc. reflexivity. }
  rewrite !emptyRefWarnings_app, IH, Hlogs, (emptyRefWarnings_writes _ Hwrites).
  destruct (decide (Ref i = "")) as [Hempty|Hset].
  - rewrite filter_cons_True by exact Hempty. simpl. lia.
  - rewrite filter_cons_False by exact Hset. simpl. lia.
Qed.

(** ** The enumeration stream *)

Lemma rangeResultChan_firstDeliveries W ctx :
  (forall tr, ctx tr = None) ->
  forall stream seen c,
    seen ⊆ projectSet c ->
    rangeResultChan W ctx (firstDeliveries seen stream) c
    = rangeResultChan W ctx stream c.
Proof.
  intros Hlive. induction stream as [|p rest IH]; intros seen c Hseen;
    [reflexivity|].
  cbn [firstDeliveries].
  destruct (decide (gitlab.PathWithNamespace p ∈ seen)) as [Hin|Hout].
  { cbn [rangeResultChan]. rewrite decide_True by set_solver. by apply IH. }
  cbn [rangeResultChan].
  destruct (decide (gitlab.PathWithNamespace p ∈ projectSet c)) as [Hvis|Hfresh].
  { apply IH. set_solver. }
  pose proof (process_marks_visited W ctx p c (Hlive _)) as Hmark.
  pose proof (updateProjectInGraph_grows W ctx p c) as (_ & Hsub & _).
  destruct (updateProjectInGraph W ctx p c) as [c1 [err|]]; simpl in Hmark, Hsub;
    apply IH; simpl; set_solver.
Qed.

(** X9: with a context that stays live, a crawl is not affected by the
    projects whose path is already in the Visited Set or came earlier in the
    stream: crawling the stream and crawling its first deliveries give the
    same result, the same Visited Set and the same calls. *)
Theorem duplicates_in_stream_have_no_effect W ctx stream streamErr c :
  (forall tr, ctx tr = None) ->
  Crawl W ctx (firstDeliveries (projectSet c) stream) streamErr c = Crawl W ctx stream streamErr c.
Proof.
  intros Hlive. unfold Crawl, crawlProjects, storageRemoveAll. cbv zeta.
  destruct (StorageCleanup (config c)).
  - destruct (RemoveAll W _); cbv beta iota zeta; [reflexivity|].
    by rewrite (rangeResultChan_firstDeliveries W ctx Hlive).
  - by rewrite (rangeResultChan_firstDeliveries W ctx Hlive).
Qed.

Lemma duplicates_in_stream_have_no_effect_witness :
  Crawl (okWorld [sharedCI]) liveCtx [teamApp; teamLib] None (New cfg0)
  = Crawl (okWorld [sharedCI]) liveCtx [teamApp; teamLib; teamApp; teamLib; teamApp]
      None (New cfg0).
Proof.
  apply (duplicates_in_stream_have_no_effect (okWorld [sharedCI]) liveCtx
           [teamApp; teamLib; teamApp; teamLib; teamApp] None (New cfg0)).
  reflexivity.
Defined.

Lemma rangeResultChan_cancelled W ctx e :
  (forall tr, ctx tr = Some e) ->
  forall stream c,
    projectSet (rangeResultChan W ctx stream c) = projectSet c /\
    trace (rangeResultChan W ctx stream c)
    = trace c
      ++ map (failedProjectLog (ErrContext e))
           (filter (fun p => gitlab.PathWithNamespace p ∉ projectSet c) stream).
Proof.
  intros Hdone. induction stream as [|p rest IH]; intros c; simpl.
  { split; [reflexivity | by rewrite app_nil_r]. }
  destruct (decide (gitlab.PathWithNamespace p ∈ projectSet c)) as [Hvis|Hfresh].
  { rewrite filter_cons_False by (intros H; by apply H). apply IH. }
  rewrite filter_cons_True by exact Hfresh.
  unfold updateProjectInGraph. rewrite Hdone.
  destruct (IH (logger ErrorLevel (Some (ErrContext e))
                  [("ProjectPath", ArgStr (gitlab.PathWithNamespace p));
                   ("ProjectID", ArgInt (gitlab.ID p))]
                  "failed to parse project" c)) as [Hv Ht].
  split; [exact Hv|]. rewrite Ht. simpl. by rewrite <- app_assoc.
Qed.

(** X11: a crawl that starts from [New] with a context that stays live, and
    is not aborted by a failing cleanup, reaches every project of the
    stream: its path is in the Visited Set at the end and
    [CreateProjectNode] was called for it. *)
Theorem crawl_reaches_every_delivered_project W ctx stream streamErr cfg p :
  (forall tr, ctx tr = None) ->
  snd (Crawl W ctx stream streamErr (New cfg)) = None ->
  p ∈ stream ->
  gitlab.PathWithNamespace p ∈ projectSet (fst (Crawl W ctx stream streamErr (New cfg))) /\
  exists res,
    EvCreateProjectNode (gitlab.PathWithNamespace p) res
      ∈ trace (fst (Crawl W ctx stream streamErr (New cfg))).
Proof.
  intros Hlive Hok Hin.
  assert (gitlab.PathWithNamespace p
            ∈ projectSet (fst (Crawl W ctx stream streamErr (New cfg)))) as Hvis.
  { revert Hok. unfold Crawl, crawlProjects, storageRemoveAll. cbv zeta.
    destruct (StorageCleanup _).
    - destruct (RemoveAll W _); cbv beta iota zeta; [discriminate|].
      intros _. by apply drained_stream_is_visited.
    - intros _. by apply drained_stream_is_visited. }
  split; [exact Hvis|].
  apply nodePaths_elem.
  destruct (Crawl_accounted W ctx stream streamErr (New cfg))
    as (c0 & Ht0 & Hv0 & d & Ht & Hv & _).
  rewrite Hv, Hv0 in Hvis. rewrite Ht, nodePaths_app.
  apply elem_of_app. right. set_solver.
Qed.

Lemma crawl_reaches_every_delivered_project_witness :
  gitlab.PathWithNamespace teamLib
    ∈ projectSet (fst (Crawl downWorld liveCtx [teamApp; teamLib] None (New cfg0))).
Proof.
  apply (crawl_reaches_every_delivered_project downWorld liveCtx
           [teamApp; teamLib] None cfg0 teamLib (fun _ => eq_refl) eq_refl).
  apply list_elem_of_further, list_elem_of_here.
Defined.

Lemma repeated_process_is_noop_witness :
  let c1 := fst (updateProjectInGraph (okWorld [sharedCI]) liveCtx teamApp
                   (New cfg0)) in
  let c2 := runOps (okWorld [sharedCI]) [OpProcess liveCtx teamLib] c1 in
  c1 = New cfg0 \/
  fst (updateProjectInGraph (okWorld [sharedCI]) liveCtx teamApp c2) = c2.
Proof.
  apply (repeated_process_is_noop (okWorld [sharedCI]) liveCtx liveCtx teamApp
           teamApp [OpProcess liveCtx teamLib] (New cfg0)).
  reflexivity.
Defined.

(** * The vendored driver *)

(** ** The tracker of server-side-routing connections *)

Lemma allOnes_value : pool.allOnes = (2 ^ 64 - 1)%Z.
Proof. reflexivity. Qed.

Lemma AddUint64_range counter delta :
  (0 <= pool.AddUint64 counter delta < 2 ^ 64)%Z.
Proof. unfold pool.AddUint64. by apply Z.mod_pos_bound. Qed.

Lemma AddUint64_down_up counter :
  (0 <= counter < 2 ^ 64)%Z ->
  pool.AddUint64 (pool.AddUint64 counter pool.allOnes) 1 = counter.
Proof.
  intros Hr. unfold pool.AddUint64. rewrite allOnes_value.
  rewrite Z.add_mod_idemp_l by done.
  replace (counter + (2 ^ 64 - 1) + 1)%Z with (counter + 1 * 2 ^ 64)%Z by ring.
  rewrite Z_mod_plus_full. by apply Z.mod_small.
Qed.

Lemma AddUint64_up_down counter :
  (0 <= counter < 2 ^ 64)%Z ->
  pool.AddUint64 (pool.AddUint64 counter 1) pool.allOnes = counter.
Proof.
  intros Hr. unfold pool.AddUint64. rewrite allOnes_value.
  rewrite Z.add_mod_idemp_l by done.
  replace (counter + 1 + (2 ^ 64 - 1))%Z with (counter + 1 * 2 ^ 64)%Z by ring.
  rewrite Z_mod_plus_full. by apply Z.mod_small.
Qed.

Lemma AddUint64_comm counter d1 d2 :
  pool.AddUint64 (pool.AddUint64 counter d1) d2
  = pool.AddUint64 (pool.AddUint64 counter d2) d1.
Proof.
  unfold pool.AddUint64. rewrite !Z.add_mod_idemp_l by done.
  f_equal. ring.
Qed.

(** X12: on a tracker whose counters are [uint64] values, adding a
    connection and then removing it, or removing it and then adding it,
    gives the tracker back, also when a counter wraps around on the way;
    and every update leaves the counters [uint64] values. *)
Theorem tracker_add_remove_round_trip c s :
  pool.inRange s ->
  pool.removeConnection c (pool.addConnection c s) = s /\
  pool.addConnection c (pool.removeConnection c s) = s /\
  pool.inRange (pool.addConnection c s) /\
  pool.inRange (pool.removeConnection c s).
Proof.
  intros [He Hd]. destruct s as [e d]; simpl in *.
  unfold pool.removeConnection, pool.addConnection, pool.inRange.
  destruct (pool.IsSsrEnabled c); simpl;
    rewrite AddUint64_down_up, AddUint64_up_down by done;
    (split; [reflexivity|]); (split; [reflexivity|]);
    split; (split; first [apply AddUint64_range | exact He | exact Hd]).
Qed.

Lemma tracker_add_remove_round_trip_witness :
  pool.removeConnection {| pool.IsSsrEnabled := true |}
    (pool.addConnection {| pool.IsSsrEnabled := true |} pool.zero)
  = pool.zero.
Proof.
  apply (tracker_add_remove_round_trip {| pool.IsSsrEnabled := true |} pool.zero).
  split; simpl; lia.
Defined.

Lemma apply_comm s u1 u2 :
  pool.apply (pool.apply s u1) u2 = pool.apply (pool.apply s u2) u1.
Proof.
  destruct u1 as [c1|c1], u2 as [c2|c2]; simpl;
    unfold pool.addConnection, pool.removeConnection;
    destruct (pool.IsSsrEnabled c1), (pool.IsSsrEnabled c2); simpl;
    try reflexivity; f_equal; apply AddUint64_comm.
Qed.

(** X13: the tracker reached by a series of additions and removals does
    not depend on the order in which they are applied: any two
    interleavings of the same updates end in the same counters. *)
Theorem tracker_updates_commute us us' s :
  us ≡ₚ us' ->
  fold_left pool.apply us s = fold_left pool.apply us' s.
Proof.
  intros Hperm. revert s.
  induction Hperm as [|u us us' _ IH|u1 u2 us|us1 us2 us3 _ IH1 _ IH2];
    intros s; simpl.
  - reflexivity.
  - apply IH.
  - by rewrite apply_comm.
  - by rewrite IH1.
Qed.

Lemma tracker_updates_commute_witness :
  fold_left pool.apply
    [pool.Add {| pool.IsSsrEnabled := true |};
     pool.Remove {| pool.IsSsrEnabled := false |}] pool.zero
  = fold_left pool.apply
      [pool.Remove {| pool.IsSsrEnabled := false |};
       pool.Add {| pool.IsSsrEnabled := true |}] pool.zero.
Proof.
  apply (tracker_updates_commute
           [pool.Add {| pool.IsSsrEnabled := true |};
            pool.Remove {| pool.IsSsrEnabled := false |}]
           [pool.Remove {| pool.IsSsrEnabled := false |};
            pool.Add {| pool.IsSsrEnabled := true |}] pool.zero).
  apply perm_swap.
Defined.

Lemma down_by counter k :
  ((pool.AddUint64 counter pool.allOnes - k) mod 2 ^ 64
   = (counter - (1 + k)) mod 2 ^ 64)%Z.
Proof.
  unfold pool.AddUint64. rewrite allOnes_value.
  rewrite Zminus_mod_idemp_l.
  replace (counter + (2 ^ 64 - 1) - k)%Z
    with (counter - (1 + k) + 1 * 2 ^ 64)%Z by ring.
  apply Z_mod_plus_full.
Qed.

Lemma addAll_counts cs :
  forall s,
    pool.inRange s ->
    pool.ssrEnabledCount (pool.addAll cs s)
    = ((pool.ssrEnabledCount s
        - Z.of_nat (length (List.filter pool.IsSsrEnabled cs))) mod 2 ^ 64)%Z /\
    pool.ssrDisabledCount (pool.addAll cs s)
    = ((pool.ssrDisabledCount s
        - Z.of_nat (length (List.filter (fun c => negb (pool.IsSsrEnabled c)) cs)))
       mod 2 ^ 64)%Z.
Proof.
  induction cs as [|c cs IH]; intros s [He Hd].
  { simpl. rewrite !Z.sub_0_r, !Z.mod_small by done. done. }
  assert (pool.inRange (pool.addConnection c s)) as Hr.
  { unfold pool.addConnection, pool.inRange.
    destruct (pool.IsSsrEnabled c); simpl; split; try done; apply AddUint64_range. }
  change (pool.addAll (c :: cs) s) with (pool.addAll cs (pool.addConnection c s)).
  destruct (IH _ Hr) as [IHe IHd]. rewrite IHe, IHd.
  unfold pool.addConnection. simpl.
  destruct (pool.IsSsrEnabled c); simpl.
  - split; [|reflexivity]. rewrite down_by. f_equal. lia.
  - split; [reflexivity|]. rewrite down_by. f_equal. lia.
Qed.

Lemma filter_lengths cs :
  length (List.filter pool.IsSsrEnabled cs)
  + length (List.filter (fun c => negb (pool.IsSsrEnabled c)) cs)
  = length cs.
Proof.
  induction cs as [|c cs IH]; simpl; [reflexivity|].
  destruct (pool.IsSsrEnabled c); simpl; lia.
Qed.

Lemma no_disabled_iff cs :
  length (List.filter (fun c => negb (pool.IsSsrEnabled c)) cs) = 0
  <-> Forall (fun c => pool.IsSsrEnabled c = true) cs.
Proof.
  induction cs as [|c cs IH]; simpl; [by split; [constructor|]|].
  destruct (pool.IsSsrEnabled c) eqn:Hc; simpl.
  - rewrite IH. split; [by constructor|]. by intros [_ ?]%Forall_cons.
  - split; [discriminate|]. intros [H _]%Forall_cons. congruence.
Qed.

(** X14: starting from the zero tracker and adding fewer than 2^64
    connections, [addConnection] counts downwards modulo 2^64: each counter
    is minus the number of connections of its kind; and [ssrEnabled]
    answers true exactly when at least one connection was added and every
    added connection has server-side routing enabled. *)
Theorem ssrEnabled_after_adding cs :
  (Z.of_nat (length cs) < 2 ^ 64)%Z ->
  let s := pool.addAll cs pool.zero in
  pool.ssrEnabledCount s
  = ((- Z.of_nat (length (List.filter pool.IsSsrEnabled cs))) mod 2 ^ 64)%Z /\
  pool.ssrDisabledCount s
  = ((- Z.of_nat (length (List.filter (fun c => negb (pool.IsSsrEnabled c)) cs)))
     mod 2 ^ 64)%Z /\
  (pool.ssrEnabled s = true
   <-> cs <> [] /\ Forall (fun c => pool.IsSsrEnabled c = true) cs).
Proof.
  intros Hlen. cbv zeta.
  destruct (addAll_counts cs pool.zero) as [He Hd]; [split; simpl; lia|].
  simpl in He, Hd. split; [exact He|]. split; [exact Hd|].
  unfold pool.ssrEnabled. rewrite He, Hd.
  pose proof (filter_lengths cs) as Hsum.
  rewrite <- no_disabled_iff.
  set (ke := length (List.filter pool.IsSsrEnabled cs)) in *.
  set (kd := length (List.filter (fun c => negb (pool.IsSsrEnabled c)) cs)) in *.
  rewrite andb_true_iff, Z.ltb_lt, Z.eqb_eq.
  assert (cs <> [] <-> length cs <> 0) as ->.
  { destruct cs; simpl; split; congruence. }
  change (2 ^ 64)%Z with 18446744073709551616%Z in *.
  clearbody ke kd. split.
  - intros [Hpos Hzero].
    assert (kd = 0) as Hkd by (Z.div_mod_to_equations; lia).
    split; [|exact Hkd]. intros Hnil.
    assert (ke = 0) as Hke by lia. subst ke.
    revert Hpos. Z.div_mod_to_equations. lia.
  - intros [Hne Hkd]. subst kd. simpl. split; [|reflexivity].
    Z.div_mod_to_equations. lia.
Qed.

Lemma ssrEnabled_after_adding_witness :
  pool.ssrEnabled
    (pool.addAll [{| pool.IsSsrEnabled := true |}; {| pool.IsSsrEnabled := true |}]
       pool.zero) = true.
Proof.
  apply (ssrEnabled_after_adding
           [{| pool.IsSsrEnabled := true |}; {| pool.IsSsrEnabled := true |}]).
  - simpl. lia.
  - split; [discriminate|]. by repeat constructor.
Defined.

(** ** The notification settings written into a transaction's metadata *)

Lemma disabledKey_not_severityKey version :
  idb.disabledKey version <> idb.severityKey.
Proof. unfold idb.disabledKey. by destruct (decide _). Qed.

Lemma ToMeta_lookup_eq {any} (ofString : string -> any)
    (ofStrings : list string -> any) DefaultLevel n
    (meta : gmap string any) version k :
  idb.ToMeta any ofString ofStrings DefaultLevel n meta version !! k
  = if decide (k = idb.disabledKey version)
    then idb.disabledEntry any ofStrings n (meta !! k)
    else if decide (k = idb.severityKey)
         then (if decide (idb.MinSev n = DefaultLevel) then meta !! k
               else Some (ofString (idb.MinSev n)))
         else meta !! k.
Proof.
  pose proof (disabledKey_not_severityKey version) as Hkeys.
  unfold idb.ToMeta, idb.disabledEntry. cbv zeta.
  set (dk := idb.disabledKey version) in *.
  assert (forall m : gmap string any,
            (if decide (idb.MinSev n <> DefaultLevel)
             then <[idb.severityKey := ofString (idb.MinSev n)]> m else m) !! k
            = if decide (k = idb.severityKey)
              then (if decide (idb.MinSev n = DefaultLevel) then m !! k
                    else Some (ofString (idb.MinSev n)))
              else m !! k) as Hsev.
  { intros m. destruct (decide (idb.MinSev n <> DefaultLevel)) as [Hne|He].
    - rewrite lookup_insert. rewrite (decide_False (P := idb.MinSev n = DefaultLevel))
        by exact Hne.
      destruct (decide (idb.severityKey = k)) as [<-|Hk].
      + by rewrite decide_True.
      + by rewrite decide_False by done.
    - apply dec_stable in He. rewrite (decide_True (P := idb.MinSev n = DefaultLevel))
        by exact He.
      by destruct (decide (k = idb.severityKey)). }
  destruct (idb.DisablesNoneCategories _ || idb.DisablesNoneClassifications _).
  { rewrite lookup_insert. destruct (decide (dk = k)) as [<-|Hk].
    - by rewrite (decide_True (P := dk = dk)).
    - rewrite (decide_False (P := k = dk)) by done. apply Hsev. }
  destruct (idb.DisabledClassifications (idb.DisClas n)) as [|x xs] eqn:Hclas;
    destruct (idb.DisabledCategories (idb.DisCats n)) as [|y ys] eqn:Hcats;
    cbv zeta.
  - rewrite !(decide_False (P := (0 < length (@nil string))%nat)) by (simpl; lia).
    rewrite Hsev. destruct (decide (k = dk)) as [->|Hk]; [|reflexivity].
    by rewrite (decide_False (P := dk = idb.severityKey)) by exact Hkeys.
  - rewrite (decide_True (P := (0 < length (y :: ys))%nat)) by (simpl; lia).
    rewrite (decide_False (P := (0 < length (@nil string))%nat)) by (simpl; lia).
    rewrite lookup_insert. destruct (decide (dk = k)) as [<-|Hk].
    + by rewrite (decide_True (P := dk = dk)).
    + rewrite (decide_False (P := k = dk)) by done. apply Hsev.
  - rewrite (decide_False (P := (0 < length (@nil string))%nat)) by (simpl; lia).
    rewrite (decide_True (P := (0 < length (x :: xs))%nat)) by (simpl; lia).
    rewrite lookup_insert. destruct (decide (dk = k)) as [<-|Hk].
    + by rewrite (decide_True (P := dk = dk)).
    + rewrite (decide_False (P := k = dk)) by done. apply Hsev.
  - rewrite (decide_True (P := (0 < length (y :: ys))%nat)) by (simpl; lia).
    rewrite (decide_True (P := (0 < length (x :: xs))%nat)) by (simpl; lia).
    rewrite lookup_insert. destruct (decide (dk = k)) as [<-|Hk].
    + by rewrite (decide_True (P := dk = dk)).
    + rewrite (decide_False (P := k = dk)) by done.
      rewrite lookup_insert_ne by exact Hk. apply Hsev.
Qed.

(** X15: what [ToMeta] leaves in the map.  Under the key of the disabled
    filters (classifications from protocol minor version 5 on, categories
    before): the empty list when either filter disables none; otherwise the
    disabled classifications when there are any, else the disabled
    categories when there are any, else what was there.  Under the severity
    key: the minimum severity, unless it is the default level.  Every other
    key, the disabled key of the other protocol generation included, keeps
    what it had. *)
Theorem ToMeta_entries {any} (ofString : string -> any)
    (ofStrings : list string -> any) DefaultLevel n
    (meta : gmap string any) version :
  let meta' := idb.ToMeta any ofString ofStrings DefaultLevel n meta version in
  meta' !! idb.disabledKey version
  = idb.disabledEntry any ofStrings n (meta !! idb.disabledKey version) /\
  meta' !! idb.severityKey
  = (if decide (idb.MinSev n = DefaultLevel) then meta !! idb.severityKey
     else Some (ofString (idb.MinSev n))) /\
  (forall k, k <> idb.disabledKey version -> k <> idb.severityKey ->
     meta' !! k = meta !! k).
Proof.
  cbv zeta. split; [|split].
  - rewrite ToMeta_lookup_eq. by rewrite decide_True.
  - rewrite ToMeta_lookup_eq.
    rewrite decide_False
      by (intros H; by apply (disabledKey_not_severityKey version)).
    by rewrite decide_True.
  - intros k Hd Hs. rewrite ToMeta_lookup_eq.
    by rewrite !decide_False by done.
Qed.

Lemma ToMeta_entries_witness :
  idb.ToMeta (list string) (fun s => [s]) (fun l => l) ""
    {| idb.MinSev := "WARNING";
       idb.DisCats := {| idb.DisablesNoneCategories := false;
                         idb.DisabledCategories := ["HINT"] |};
       idb.DisClas := {| idb.DisablesNoneClassifications := false;
                         idb.DisabledClassifications := [] |} |}
    {[ "tx_timeout" := ["5000"] ]}
    {| idb.Major := 5; idb.Minor := 4 |} !! "tx_timeout"
  = Some ["5000"].
Proof.
  rewrite (proj2 (proj2 (ToMeta_entries (fun s => [s]) (fun l => l) ""
                           {| idb.MinSev := "WARNING";
                              idb.DisCats := {| idb.DisablesNoneCategories := false;
                                                idb.DisabledCategories := ["HINT"] |};
                              idb.DisClas := {| idb.DisablesNoneClassifications := false;
                                                idb.DisabledClassifications := [] |} |}
                           {[ "tx_timeout" := ["5000"] ]}
                           {| idb.Major := 5; idb.Minor := 4 |}))
             "tx_timeout").
  - reflexivity.
  - discriminate.
  - discriminate.
Defined.

(** X16: [ToMeta] is idempotent, writing the same settings into the map a
    second time changes nothing; and settings that ask for nothing (default
    severity, no filter that disables none, no disabled category or
    classification) leave the map as it is. *)
Theorem ToMeta_idempotent {any} (ofString : string -> any)
    (ofStrings : list string -> any) DefaultLevel n
    (meta : gmap string any) version :
  let write := fun m => idb.ToMeta any ofString ofStrings DefaultLevel n m version in
  write (write meta) = write meta /\
  (idb.MinSev n = DefaultLevel ->
   idb.DisablesNoneCategories (idb.DisCats n) = false ->
   idb.DisablesNoneClassifications (idb.DisClas n) = false ->
   idb.DisabledCategories (idb.DisCats n) = [] ->
   idb.DisabledClassifications (idb.DisClas n) = [] ->
   write meta = meta).
Proof.
  cbv zeta. split.
  - apply map_eq. intros k. rewrite !ToMeta_lookup_eq.
    destruct (decide (k = idb.disabledKey version)) as [->|Hd].
    + unfold idb.disabledEntry.
      destruct (idb.DisablesNoneCategories (idb.DisCats n)
                || idb.DisablesNoneClassifications (idb.DisClas n));
        [reflexivity|].
      by destruct (idb.DisabledClassifications (idb.DisClas n)),
                  (idb.DisabledCategories (idb.DisCats n)).
    + destruct (decide (k = idb.severityKey)); [|reflexivity].
      by destruct (decide (idb.MinSev n = DefaultLevel)).
  - intros Hsev Hcats Hclas Hnocat Hnoclas.
    apply map_eq. intros k. rewrite ToMeta_lookup_eq.
    unfold idb.disabledEntry. rewrite Hcats, Hclas, Hnocat, Hnoclas. simpl.
    rewrite (decide_True (P := idb.MinSev n = DefaultLevel)) by exact Hsev.
    by destruct (decide (k = idb.disabledKey version)),
                (decide (k = idb.severityKey)).
Qed.

Lemma ToMeta_idempotent_witness :
  idb.ToMeta (list string) (fun s => [s]) (fun l => l) ""
    {| idb.MinSev := "";
       idb.DisCats := {| idb.DisablesNoneCategories := false;
                         idb.DisabledCategories := [] |};
       idb.DisClas := {| idb.DisablesNoneClassifications := false;
                         idb.DisabledClassifications := [] |} |}
    {[ "tx_timeout" := ["5000"] ]}
    {| idb.Major := 5; idb.Minor := 6 |}
  = {[ "tx_timeout" := ["5000"] ]}.
Proof.
  apply (proj2 (ToMeta_idempotent (fun s => [s]) (fun l => l) ""
                  {| idb.MinSev := "";
                     idb.DisCats := {| idb.DisablesNoneCategories := false;
                                       idb.DisabledCategories := [] |};
                     idb.DisClas := {| idb.DisablesNoneClassifications := false;
                                       idb.DisabledClassifications := [] |} |}
                  {[ "tx_timeout" := ["5000"] ]}
                  {| idb.Major := 5; idb.Minor := 6 |}));
    reflexivity.
Defined.

Lemma process_failure_kinds_witness :
  (gitlab.PathWithNamespace teamApp ∉ projectSet (New cfg0)) /\
  ((exists e, Errorf "failed to write project to neo4j: %w" [] storageDown
              = Errorf "failed to write project to neo4j: %w" [] e) \/
   (exists e, Errorf "failed to write project to neo4j: %w" [] storageDown
              = Errorf "failed to get file %s: %w" [ArgStr gitlabCIFileName] e
              /\ errorsIs e ErrRawFileNotFound = false) \/
   (exists e, Errorf "failed to write project to neo4j: %w" [] storageDown
              = Errorf "failed to parse includes for %d: %w"
                  [ArgInt (gitlab.ID teamApp)] e)).
Proof.
  apply (process_failure_kinds downWorld liveCtx teamApp (New cfg0)
           (Errorf "failed to write project to neo4j: %w" [] storageDown));
    reflexivity.
Defined.

(** * The producer goroutine, the consumer loop and the context *)

(** ** Only the start of the producer adds to [background] *)

Lemma traverseIncludes_background W parentName include c :
  background (fst (traverseIncludes W parentName include c)) = background c.
Proof.
  apply (traverseIncludes_rect W
           (fun _ _ c r => background (fst r) = background c)
           (fun _ c r => background (fst r) = background c)).
  - by intros.
  - by intros.
  - by intros pn i c0 r _ _ ->.
  - by intros.
  - by intros.
  - intros ci rest c0 c1 r H1 H2. simpl in H1. by rewrite H2.
Qed.

Lemma rangeIncludes_background W parentName includes :
  forall c, background (rangeIncludes W parentName includes c) = background c.
Proof.
  induction includes as [|i rest IH]; intros c; simpl; [reflexivity|].
  rewrite IH.
  set (c1 := if decide (Ref i = "") then _ else c).
  assert (background c1 = background c) as H1
    by (subst c1; by destruct (decide _)).
  pose proof (traverseIncludes_background W parentName i c1) as H2.
  destruct (traverseIncludes W parentName i c1) as [c2 [err|]]; simpl in *;
    congruence.
Qed.

Lemma updateProjectInGraph_background W ctx project c :
  background (fst (updateProjectInGraph W ctx project c)) = background c.
Proof.
  unfold updateProjectInGraph.
  destruct (ctx (trace c)); [reflexivity|].
  destruct (decide _); [reflexivity|].
  unfold storageCreateProjectNode, gitlabGetRawFileFromProject,
    callParseIncludes; simpl.
  destruct (CreateProjectNode W _ _) as [err|]; simpl; [reflexivity|].
  destruct (GetRawFileFromProject W _ _ _ _ _) as [raw|err]; simpl.
  2: { by destruct (errorsIs _ _). }
  destruct (parseIncludes W _ _) as [includes|err]; simpl; [|reflexivity].
  by rewrite rangeIncludes_background.
Qed.

Lemma rangeResultChan_background W ctx stream :
  forall c, background (rangeResultChan W ctx stream c) = background c.
Proof.
  induction stream as [|p rest IH]; intros c; simpl; [reflexivity|].
  destruct (decide _); [apply IH|].
  pose proof (updateProjectInGraph_background W ctx p c) as H.
  destruct (updateProjectInGraph W ctx p c) as [c1 [err|]]; simpl in *;
    by rewrite IH.
Qed.

(** ** The consumer loop deals with every delivered project *)

Lemma rangeResultChan_app W ctx before after :
  forall c,
    rangeResultChan W ctx (before ++ after) c
    = rangeResultChan W ctx after (rangeResultChan W ctx before c).
Proof.
  induction before as [|p rest IH]; intros c; simpl; [reflexivity|].
  destruct (decide _); [apply IH|].
  destruct (updateProjectInGraph W ctx p c) as [c1 [err|]]; apply IH.
Qed.

Lemma newEvents_grows_l P Q c c1 c2 ev :
  grows P c c1 -> grows Q c1 c2 -> ev ∈ newEvents c c1 -> ev ∈ newEvents c c2.
Proof.
  intros H1 H2 Hin. rewrite (newEvents_trans _ _ _ _ _ H1 H2).
  apply elem_of_app. by left.
Qed.

Lemma newEvents_grows_r P Q c c1 c2 ev :
  grows P c c1 -> grows Q c1 c2 -> ev ∈ newEvents c1 c2 -> ev ∈ newEvents c c2.
Proof.
  intros H1 H2 Hin. rewrite (newEvents_trans _ _ _ _ _ H1 H2).
  apply elem_of_app. by right.
Qed.

Lemma newEvents_emit ev c : newEvents c (emit ev c) = [ev].
Proof. by apply newEvents_app. Qed.

Lemma rangeResultChan_deals_with_all W ctx stream :
  forall c p, p ∈ stream ->
    gitlab.PathWithNamespace p ∈ projectSet (rangeResultChan W ctx stream c) \/
    exists e, failedProjectLog (ErrContext e) p
                ∈ newEvents c (rangeResultChan W ctx stream c).
Proof.
  induction stream as [|q rest IH]; intros c p Hin.
  { by apply elem_of_nil in Hin. }
  cbn [rangeResultChan].
  destruct (decide (gitlab.PathWithNamespace q ∈ projectSet c)) as [Hvis|Hfresh].
  { apply elem_of_cons in Hin as [->|Hin]; [|by apply IH].
    left. eapply grows_visited; [apply rangeResultChan_grows | exact Hvis]. }
  pose proof (updateProjectInGraph_grows W ctx q c) as Hg.
  destruct (ctx (trace c)) as [e|] eqn:Hctx.
  - (* the context is done: the call fails and the failure is logged *)
    assert (updateProjectInGraph W ctx q c = (c, Some (ErrContext e))) as ->
      by (unfold updateProjectInGraph; by rewrite Hctx).
    set (c1 := logger ErrorLevel _ _ _ c).
    assert (grows anyEvent c c1) as Hg1 by (by apply grows_emit).
    apply elem_of_cons in Hin as [->|Hin].
    + right. exists e.
      eapply newEvents_grows_l; [exact Hg1 | apply rangeResultChan_grows|].
      subst c1. unfold logger. rewrite newEvents_emit. by left.
    + destruct (IH c1 p Hin) as [Hv|(e' & He')]; [by left|].
      right. exists e'.
      eapply newEvents_grows_r; [exact Hg1 | apply rangeResultChan_grows | exact He'].
  - (* the context is live: the project is marked, whatever is returned *)
    pose proof (process_marks_visited W ctx q c Hctx) as Hmark.
    destruct (updateProjectInGraph W ctx q c) as [c1 [err|]]; simpl in Hg, Hmark.
    + set (c2 := logger ErrorLevel _ _ _ c1).
      assert (grows anyEvent c c2) as Hg2.
      { eapply grows_trans; [exact Hg | by apply grows_emit]. }
      apply elem_of_cons in Hin as [->|Hin].
      * left. eapply grows_visited; [apply rangeResultChan_grows | exact Hmark].
      * destruct (IH c2 p Hin) as [Hv|(e' & He')]; [by left|].
        right. exists e'.
        eapply newEvents_grows_r; [exact Hg2 | apply rangeResultChan_grows | exact He'].
    + apply elem_of_cons in Hin as [->|Hin].
      * left. eapply grows_visited; [apply rangeResultChan_grows | exact Hmark].
      * destruct (IH c1 p Hin) as [Hv|(e' & He')]; [by left|].
        right. exists e'.
        eapply newEvents_grows_r; [exact Hg | apply rangeResultChan_grows | exact He'].
Qed.

Lemma rangeResultChan_logs_failure W ctx before p after err c :
  gitlab.PathWithNamespace p ∉ projectSet (rangeResultChan W ctx before c) ->
  snd (updateProjectInGraph W ctx p (rangeResultChan W ctx before c)) = Some err ->
  failedProjectLog err p
    ∈ newEvents c (rangeResultChan W ctx (before ++ p :: after) c).
Proof.
  intros Hfresh Hfail. rewrite rangeResultChan_app. cbn [rangeResultChan].
  set (cp := rangeResultChan W ctx before c) in *.
  rewrite decide_False by exact Hfresh.
  pose proof (updateProjectInGraph_grows W ctx p cp) as Hg.
  destruct (updateProjectInGraph W ctx p cp) as [c1 [e|]]; simpl in Hfail, Hg;
    [|discriminate].
  injection Hfail as ->.
  set (c2 := logger ErrorLevel _ _ _ c1).
  assert (grows anyEvent c c1) as Hc1.
  { eapply grows_trans; [apply rangeResultChan_grows | exact Hg]. }
  assert (grows anyEvent c1 c2) as H12 by (by apply grows_emit).
  eapply newEvents_grows_l;
    [eapply grows_trans; [exact Hc1 | exact H12] | apply rangeResultChan_grows|].
  eapply newEvents_grows_r; [exact Hc1 | exact H12|].
  subst c2. unfold logger. rewrite newEvents_emit. by left.
Qed.

Lemma loopStart_grows W streamErr c :
  grows anyEvent c (loopStart W streamErr c) /\
  projectSet (loopStart W streamErr c) = projectSet c /\
  background (loopStart W streamErr c) = background c ++ producerLog streamErr.
Proof.
  unfold loopStart, storageRemoveAll, goProducer, logger.
  destruct (StorageCleanup (config c)); simpl.
  - split; [|split; reflexivity].
    split; [reflexivity|]. split; [simpl; set_solver|].
    eexists [_; _; _]. simpl. split; [by rewrite <- !app_assoc | by repeat constructor].
  - split; [|split; reflexivity].
    split; [reflexivity|]. split; [simpl; set_solver|].
    eexists [_]. simpl. split; [reflexivity | by repeat constructor].
Qed.

Lemma Crawl_not_aborted W ctx stream streamErr c :
  StorageCleanup (config c) = false \/
  RemoveAll W (trace c ++ [EvLog InfoLevel None [] "Cleanup storage..."]) = None ->
  Crawl W ctx stream streamErr c
  = (logger InfoLevel None [] "stopped crawling"
       (rangeResultChan W ctx stream (loopStart W streamErr c)), None).
Proof.
  intros Hwipe. unfold Crawl, crawlProjects, loopStart, storageRemoveAll.
  destruct (StorageCleanup (config c)) eqn:Hcfg.
  - destruct Hwipe as [|Hwipe]; [discriminate|]. cbv zeta.
    cbn [logger emit trace]. rewrite Hwipe. reflexivity.
  - reflexivity.
Qed.

(** C9: when the storage wipe is not requested or succeeds, Crawl returns
    nil whatever the collaborators answered and whatever the producer
    returned, and it does so with the queue drained: every delivered
    project was dealt with (its path is in the Visited Set at the end, or
    its Process call returned the context's error and that was logged);
    every Process call that returned an error, at its turn in the loop, has
    its failure in the log, and the loop went on to the projects after it;
    the last line is the stop line; and the producer's error line, if
    [StreamAllProjects] failed, is in the background log.  When the wipe is
    requested and [RemoveAll] fails, Crawl returns that very error, having
    only logged the cleanup line and called [RemoveAll]: no project was
    processed, the Visited Set is untouched and the producer was never
    started. *)
Theorem crawl_outcome W ctx stream streamErr c :
  (StorageCleanup (config c) = false \/
   RemoveAll W (trace c ++ [EvLog InfoLevel None [] "Cleanup storage..."]) = None ->
   let r := Crawl W ctx stream streamErr c in
   snd r = None /\
   (forall p, p ∈ stream ->
      gitlab.PathWithNamespace p ∈ projectSet (fst r) \/
      exists e, failedProjectLog (ErrContext e) p ∈ newEvents c (fst r)) /\
   (forall before p after err,
      stream = before ++ p :: after ->
      let cp := rangeResultChan W ctx before (loopStart W streamErr c) in
      gitlab.PathWithNamespace p ∉ projectSet cp ->
      snd (updateProjectInGraph W ctx p cp) = Some err ->
      failedProjectLog err p ∈ newEvents c (fst r) /\
      forall q, q ∈ after ->
        gitlab.PathWithNamespace q ∈ projectSet (fst r) \/
        exists e, failedProjectLog (ErrContext e) q ∈ newEvents c (fst r)) /\
   (exists d,
      newEvents c (fst r) = d ++ [EvLog InfoLevel None [] "stopped crawling"]) /\
   background (fst r) = background c ++ producerLog streamErr) /\
  (forall err,
     StorageCleanup (config c) = true ->
     RemoveAll W (trace c ++ [EvLog InfoLevel None [] "Cleanup storage..."])
     = Some err ->
     snd (Crawl W ctx stream streamErr c) = Some err /\
     projectSet (fst (Crawl W ctx stream streamErr c)) = projectSet c /\
     newEvents c (fst (Crawl W ctx stream streamErr c))
     = [EvLog InfoLevel None [] "Cleanup storage..."; EvRemoveAll (Some err)] /\
     background (fst (Crawl W ctx stream streamErr c)) = background c).
Proof.
  split.
  - intros Hwipe. cbv zeta.
    rewrite (Crawl_not_aborted W ctx stream streamErr c Hwipe). cbn [fst snd].
    destruct (loopStart_grows W streamErr c) as (Hg0 & Hv0 & Hb0).
    set (c0 := loopStart W streamErr c) in *.
    set (cF := rangeResultChan W ctx stream c0).
    pose proof (rangeResultChan_grows W ctx stream c0) as HgF. fold cF in HgF.
    assert (grows anyEvent cF (logger InfoLevel None [] "stopped crawling" cF))
      as Hstop by (by apply grows_emit).
    assert (grows anyEvent c cF) as HcF by (eapply grows_trans; eassumption).
    assert (forall p, p ∈ stream ->
              gitlab.PathWithNamespace p
                ∈ projectSet (logger InfoLevel None [] "stopped crawling" cF) \/
              exists e, failedProjectLog (ErrContext e) p
                          ∈ newEvents c (logger InfoLevel None [] "stopped crawling" cF))
      as Hall.
    { intros p Hin.
      destruct (rangeResultChan_deals_with_all W ctx stream c0 p Hin)
        as [Hv|(e & He)]; [by left|].
      right. exists e.
      eapply newEvents_grows_l; [exact HcF | exact Hstop|].
      eapply newEvents_grows_r; [exact Hg0 | exact HgF | exact He]. }
    split; [reflexivity|]. split; [exact Hall|]. split; [|split].
    + intros before p after err Hstream Hfresh Hfail. split.
      * eapply newEvents_grows_l; [exact HcF | exact Hstop|].
        eapply newEvents_grows_r; [exact Hg0 | exact HgF|].
        subst cF. rewrite Hstream.
        by apply rangeResultChan_logs_failure.
      * intros q Hq. apply Hall. rewrite Hstream.
        apply elem_of_app. right. by right.
    + exists (newEvents c cF).
      rewrite (newEvents_trans _ _ _ _ _ HcF Hstop).
      unfold logger. by rewrite newEvents_emit.
    + cbn [logger emit background].
      subst cF. by rewrite rangeResultChan_background.
  - intros err Hcfg Hwipe. unfold Crawl, storageRemoveAll.
    rewrite Hcfg. cbv zeta. cbn [logger emit trace]. rewrite Hwipe.
    cbn [fst snd]. split; [reflexivity|]. split; [reflexivity|].
    split; [by new_events | reflexivity].
Qed.

Lemma crawl_outcome_witness :
  snd (Crawl downWorld liveCtx [teamApp; teamLib] (Some storageDown) (New cfg0))
  = None /\
  snd (Crawl downWorld liveCtx [teamApp; teamLib] (Some storageDown)
         (New cfgCleanup))
  = Some storageDown.
Proof.
  split.
  - apply (proj1 (crawl_outcome downWorld liveCtx [teamApp; teamLib]
                    (Some storageDown) (New cfg0))).
    left. reflexivity.
  - apply (proj2 (crawl_outcome downWorld liveCtx [teamApp; teamLib]
                    (Some storageDown) (New cfgCleanup)) storageDown);
      reflexivity.
Defined.

(** A crawl in which both projects fail and the enumeration fails too: it
    runs to the end, and the failures show only in the logs. *)
Example crawl_logs_failed_projects :
  let r := Crawl downWorld liveCtx [teamApp; teamLib]
             (Some (ErrOpaque "enumeration failed")) (New cfg0) in
  snd r = None /\
  trace (fst r)
  = [EvLog InfoLevel None [] "Starting to crawl...";
     EvCreateProjectNode "team/app" (Some storageDown);
     failedProjectLog
       (Errorf "failed to write project to neo4j: %w" [] storageDown) teamApp;
     EvCreateProjectNode "team/lib" (Some storageDown);
     failedProjectLog
       (Errorf "failed to write project to neo4j: %w" [] storageDown) teamLib;
     EvLog InfoLevel None [] "stopped crawling"] /\
  background (fst r)
  = [EvLog ErrorLevel (Some (ErrOpaque "enumeration failed")) []
       "stopping crawler: error in project stream"].
Proof. cbv zeta. repeat split; reflexivity. Qed.

(** X10: a crawl whose context is done from the start writes no node and no
    edge, fetches nothing and leaves the Visited Set as it was; the consumer
    logs one failure, with the context's error, for every delivered project
    that is not in the Visited Set, duplicates included, since none gets
    marked.  The cleanup is not held back by the context: when configured,
    [RemoveAll] is called all the same.  Unless the cleanup aborted the
    crawl, the producer goroutine was started, and its error line, if
    [StreamAllProjects] returned an error, is in the background log. *)
Theorem crawl_with_done_context W ctx e stream streamErr c :
  (forall tr, ctx tr = Some e) ->
  let r := Crawl W ctx stream streamErr c in
  let wipe := RemoveAll W (trace c ++ [EvLog InfoLevel None [] "Cleanup storage..."]) in
  let loop :=
    [EvLog InfoLevel None [] "Starting to crawl..."]
    ++ map (failedProjectLog (ErrContext e))
         (filter (fun p => gitlab.PathWithNamespace p ∉ projectSet c) stream)
    ++ [EvLog InfoLevel None [] "stopped crawling"] in
  projectSet (fst r) = projectSet c /\
  newEvents c (fst r)
  = (if StorageCleanup (config c)
     then [EvLog InfoLevel None [] "Cleanup storage..."; EvRemoveAll wipe]
          ++ (match wipe with Some _ => [] | None => loop end)
     else loop) /\
  background (fst r)
  = background c
    ++ (if StorageCleanup (config c)
        then match wipe with Some _ => [] | None => producerLog streamErr end
        else producerLog streamErr).
Proof.
  intros Hdone. cbv zeta. unfold Crawl, crawlProjects, storageRemoveAll. cbv zeta.
  destruct (StorageCleanup (config c)).
  - destruct (RemoveAll W _) as [err|]; cbv beta iota zeta.
    + split; [reflexivity|]. split; [by new_events|].
      cbn [fst logger emit background]. by rewrite app_nil_r.
    + match goal with
      | |- context [rangeResultChan W ctx stream ?c0] =>
          destruct (rangeResultChan_cancelled W ctx e Hdone stream c0) as [Hv Ht];
          pose proof (rangeResultChan_background W ctx stream c0) as Hb;
          split; [change (projectSet (rangeResultChan W ctx stream c0)
                          = projectSet c); by rewrite Hv|]
      end.
      split.
      * apply newEvents_app.
        cbn [fst logger emit trace]. rewrite Ht. simpl.
        by rewrite <- !app_assoc.
      * cbn [fst logger emit background]. by rewrite Hb.
  - match goal with
    | |- context [rangeResultChan W ctx stream ?c0] =>
        destruct (rangeResultChan_cancelled W ctx e Hdone stream c0) as [Hv Ht];
        pose proof (rangeResultChan_background W ctx stream c0) as Hb;
        split; [change (projectSet (rangeResultChan W ctx stream c0)
                        = projectSet c); by rewrite Hv|]
    end.
    split.
    + apply newEvents_app.
      cbn [fst logger emit trace]. rewrite Ht. simpl.
      by rewrite <- !app_assoc.
    + cbn [fst logger emit background]. by rewrite Hb.
Qed.

Lemma crawl_with_done_context_witness :
  let r := Crawl (okWorld [sharedCI]) doneCtx [teamApp; teamApp]
             (Some (ErrContext Canceled)) (New cfgCleanup) in
  newEvents (New cfgCleanup) (fst r)
  = [EvLog InfoLevel None [] "Cleanup storage...";
     EvRemoveAll None;
     EvLog InfoLevel None [] "Starting to crawl...";
     failedProjectLog (ErrContext Canceled) teamApp;
     failedProjectLog (ErrContext Canceled) teamApp;
     EvLog InfoLevel None [] "stopped crawling"] /\
  background (fst r)
  = [EvLog ErrorLevel (Some (ErrContext Canceled)) []
       "stopping crawler: error in project stream"].
Proof.
  exact (proj2 (crawl_with_done_context (okWorld [sharedCI]) doneCtx Canceled
                  [teamApp; teamApp] (Some (ErrContext Canceled))
                  (New cfgCleanup) (fun _ => eq_refl))).
Defined.

(** C6, as the code has it: the context is consulted by the entry check of
    Process and handed to the descriptor fetch, and nowhere else; the
    storage calls take no context.  A call that finds the context done at
    entry adds no event.  A call that passes the entry check for an
    unvisited project makes its node write, whatever the context becomes.
    And the call depends on the context through the answer of its one
    descriptor fetch only: two contexts that are live at entry and under
    which that fetch call, made after a successful node write, answers
    alike give the same calls, the same Visited Set and the same result,
    so that once the fetch has answered, the parse and every write of the
    include persistence happen regardless of the context. *)
Theorem context_is_consulted_at_entry_only W ctx1 ctx2 project c :
  let path := gitlab.PathWithNamespace project in
  (forall e, ctx1 (trace c) = Some e ->
     newEvents c (fst (updateProjectInGraph W ctx1 project c)) = []) /\
  (ctx1 (trace c) = None -> path ∉ projectSet c ->
   exists rest,
     newEvents c (fst (updateProjectInGraph W ctx1 project c))
     = EvCreateProjectNode path (CreateProjectNode W (trace c) path) :: rest) /\
  (ctx1 (trace c) = None -> ctx2 (trace c) = None ->
   (path ∉ projectSet c ->
    CreateProjectNode W (trace c) path = None ->
    GetRawFileFromProject W ctx1 (trace c ++ [EvCreateProjectNode path None])
      (gitlab.ID project) gitlabCIFileName (gitlab.DefaultBranch project)
    = GetRawFileFromProject W ctx2 (trace c ++ [EvCreateProjectNode path None])
        (gitlab.ID project) gitlabCIFileName (gitlab.DefaultBranch project)) ->
   updateProjectInGraph W ctx1 project c = updateProjectInGraph W ctx2 project c).
Proof.
  cbv zeta. split; [|split].
  - intros e Hdone. unfold updateProjectInGraph. rewrite Hdone. simpl.
    apply newEvents_same.
  - intros Hlive Hfresh. unfold updateProjectInGraph. rewrite Hlive.
    rewrite decide_False by exact Hfresh.
    unfold storageCreateProjectNode, gitlabGetRawFileFromProject,
      callParseIncludes; simpl.
    destruct (CreateProjectNode W _ _) as [e1|]; simpl.
    { eexists. by new_events. }
    destruct (GetRawFileFromProject W _ _ _ _ _) as [raw|e2]; simpl.
    + destruct (parseIncludes W _ _) as [includes|e3]; simpl.
      2: { eexists. by new_events. }
      match goal with
      | |- context [rangeIncludes W ?pn ?incs ?c0] =>
          pose proof (rangeIncludes_grows W pn incs c0) as Hg;
          set (c3 := rangeIncludes W pn incs c0) in *
      end.
      apply grows_trace in Hg. simpl in Hg.
      rewrite <- !app_assoc in Hg. simpl in Hg.
      eexists. by apply newEvents_app.
    + destruct (errorsIs e2 ErrRawFileNotFound); simpl; eexists; by new_events.
  - intros H1 H2 Hfetch. unfold updateProjectInGraph. rewrite H1, H2.
    destruct (decide _) as [|Hfresh]; [reflexivity|].
    unfold storageCreateProjectNode, gitlabGetRawFileFromProject. cbv zeta.
    cbn [trace markVisited emit].
    destruct (CreateProjectNode W _ _) as [err|] eqn:Hnode; [reflexivity|].
    by rewrite (Hfetch Hfresh eq_refl).
Qed.

Lemma context_is_consulted_at_entry_only_witness :
  newEvents (New cfg0)
    (fst (updateProjectInGraph (honouringWorld [sharedCI]) doneCtx teamApp
            (New cfg0)))
  = [] /\
  updateProjectInGraph (honouringWorld [sharedCI]) liveCtx teamApp (New cfg0)
  = updateProjectInGraph (honouringWorld [sharedCI]) (cancelAfter 2) teamApp
      (New cfg0).
Proof.
  split.
  - apply (proj1 (context_is_consulted_at_entry_only (honouringWorld [sharedCI])
                    doneCtx doneCtx teamApp (New cfg0)) Canceled).
    reflexivity.
  - apply (proj2 (proj2 (context_is_consulted_at_entry_only
                           (honouringWorld [sharedCI]) liveCtx (cancelAfter 2)
                           teamApp (New cfg0))));
      reflexivity.
Defined.

(** With a client that honours the context, a cancellation between the
    entry check and the fetch leaves the node of the project written and no
    include persisted; a cancellation after the fetch leaves every write of
    the include persistence made. *)
Example cancellation_before_and_after_the_fetch :
  newEvents (New cfg0)
    (fst (updateProjectInGraph (honouringWorld [sharedCI]) (cancelAfter 1) teamApp
            (New cfg0)))
  = [EvCreateProjectNode "team/app" None;
     EvGetRawFileFromProject 1 ".gitlab-ci.yml" "main"
       (inr (ErrContext Canceled))] /\
  newEvents (New cfg0)
    (fst (updateProjectInGraph (honouringWorld [sharedCI]) (cancelAfter 2) teamApp
            (New cfg0)))
  = [EvCreateProjectNode "team/app" None;
     EvGetRawFileFromProject 1 ".gitlab-ci.yml" "main" (inl []);
     EvParseIncludes [] (inl [sharedCI]);
     EvCreateProjectNode "team/shared-ci" None;
     EvCreateIncludeEdge (includeEdge "team/app" sharedCI) None;
     EvCreateProjectNode "team/base-ci" None;
     EvCreateIncludeEdge (includeEdge "team/base-ci" (leaf "team/base-ci")) None].
Proof. split; reflexivity. Qed.
